(** * Audit-log events of the WorkOS Go client: model and properties

    A shallow embedding of [auditlog/event.go].  Go maps are reference
    values: an [Event] holds a reference to its metadata map, and the
    methods with a value receiver ([AddMetadata], [addMetadata],
    [Publish]) change the map their caller still holds.  The model
    therefore keeps the maps in a store and passes the store along.

    What the model takes from outside the file:
    - the order in which [range] visits a map, as a function [range]
      of which only "every entry once" is assumed;
    - [os.Hostname()] and [time.Now().UTC()], as the record [host];
    - [client.PublishEvent], as the function [transport];
    - [encoding/json], by the JSON document it produces rather than by
      its bytes, and [net/http], by the four things read of a request.

    A batch handed to [AddMetadata] is a map of its own: passing the
    event's own map as the batch is not modelled.  The methods of an
    [Auditable] are functions of the value. *)

From Stdlib Require Import ZArith String Ascii.
From stdpp Require Import base option list gmap fin_maps strings sorting pretty.

Local Set Warnings "-register-all".
Local Open Scope string_scope.

(** ** Go values *)

(** [error] values this package returns or passes on.  [errors_New] is
    Go's [errors.New]; the two [json_] errors are the ones
    [encoding/json] reports; [client_Error] stands for whatever the
    transport answers. *)
Inductive error : Type :=
  | errors_New (msg : string)
  | json_UnsupportedTypeError
  | json_MarshalerError (msg : string)
  | client_Error (code : nat).

#[global] Instance error_eq_dec : EqDecision error.
Proof. solve_decision. Defined.

(** The dynamic values an [interface{}] of the metadata map can hold, as
    far as this package and [encoding/json] tell them apart.
    [VEntity name id v] is a value whose type implements [Auditable]:
    its two methods answer [name] and [id], and [encoding/json] sees it
    as [v].  [VChan] is a value [encoding/json] has no encoding for
    (a channel, a function). *)
Inductive value : Type :=
  | VNil
  | VBool (b : bool)
  | VInt (n : Z)
  | VString (s : string)
  | VSlice (l : list value)
  | VEntity (name id : string) (v : value)
  | VChan.

(** JSON documents. An object keeps its members in the order written. *)
Inductive json : Type :=
  | JNull
  | JBool (b : bool)
  | JNumber (n : Z)
  | JString (s : string)
  | JArray (l : list json)
  | JObject (members : list (string * json)).

(** [Auditable] is the interface of the source: a value that can name
    itself for the audit log. *)
Class Auditable (A : Type) : Type := {
  ToAuditableName : A -> string;
  ToAuditableID : A -> string
}.

(** Storing an [Auditable] in an [interface{}]. *)
Definition as_value `{Auditable A} (a : A) (plain : value) : value :=
  VEntity (ToAuditableName a) (ToAuditableID a) plain.

(** The type assertion [value.(Auditable)]. *)
Definition is_Auditable (v : value) : bool :=
  match v with
  | VEntity _ _ _ => true
  | _ => false
  end.

(** [encoding/json] on a metadata value: [None] is
    [UnsupportedTypeError]. *)
Fixpoint encode (v : value) : option json :=
  match v with
  | VNil => Some JNull
  | VBool b => Some (JBool b)
  | VInt n => Some (JNumber n)
  | VString s => Some (JString s)
  | VSlice l =>
      (fix go (l : list value) : option (list json) :=
         match l with
         | [] => Some []
         | x :: r =>
             match encode x, go r with
             | Some j, Some js => Some (j :: js)
             | _, _ => None
             end
         end) l ≫= λ js, Some (JArray js)
  | VEntity _ _ v => encode v
  | VChan => None
  end.

(** ** Time *)

(** A [time.Time] in UTC, by its wall-clock fields. *)
Record Time : Type := mkTime {
  year : Z; month : N; day : N;
  hour : N; minute : N; second : N; nanosecond : N
}.

(** [time.Time{}] *)
Definition Time_zero : Time := mkTime 1 1 1 0 0 0 0.

Fixpoint zeros (n : nat) : string :=
  match n with
  | O => ""
  | S n' => "0" ++ zeros n'
  end.

(** Decimal digits of [n], zero-padded on the left to width [w]. *)
Definition digits (w : nat) (n : N) : string :=
  zeros (w - String.length (pretty n)) ++ pretty n.

(** Drops the zeros at the end of the fraction, as layout [.999999999] does. *)
Fixpoint trim0 (s : string) : string :=
  match s with
  | EmptyString => EmptyString
  | String c r =>
      match trim0 r with
      | EmptyString => if decide (c = "0"%char) then EmptyString else String c EmptyString
      | r' => String c r'
      end
  end.

Definition fraction (ns : N) : string :=
  match trim0 (digits 9 ns) with
  | EmptyString => ""
  | f => "." ++ f
  end.

(** [Time.MarshalJSON] for a UTC time: layout [RFC3339Nano], and an error
    for a year outside [0,9999]. *)
Definition Time_MarshalJSON (t : Time) : error + json :=
  if decide (0 <= year t <= 9999)%Z then
    inr (JString (digits 4 (Z.to_N (year t)) ++ "-" ++ digits 2 (month t) ++ "-"
                  ++ digits 2 (day t) ++ "T" ++ digits 2 (hour t) ++ ":"
                  ++ digits 2 (minute t) ++ ":" ++ digits 2 (second t)
                  ++ fraction (nanosecond t) ++ "Z"))
  else inl (json_MarshalerError "Time.MarshalJSON: year outside of range [0,9999]").

(** ** Events and the store of maps *)

(** Modelled from the spec: the declaration of [Action] is not in this
    file of the package; the spec gives the action name as a string. *)
Definition Action : Type := string.

(** [type ActionType string] and its four constants. *)
Definition ActionType : Type := string.
Definition Create : ActionType := "C".

(** A map value is a reference into the store; [None] is the nil map. *)
Definition loc : Type := positive.

Record Event : Type := mkEvent {
  Group : string;
  Action_ : Action;
  ActionType_ : ActionType;
  ActorName : string;
  ActorID : string;
  Location : string;
  OccuredAt : Time;
  TargetName : string;
  TargetID : string;
  Metadata : option loc
}.

(** [Event{}] *)
Definition Event_zero : Event :=
  mkEvent "" "" "" "" "" "" Time_zero "" "" None.

(** The part of the process the package reads and writes: the maps
    allocated so far, the package variable [globalMetadata], and the
    bodies handed to the transport, oldest first.

    Modelled from the spec: [globalMetadata] is declared in another file
    of the package; the spec describes it as the process-wide default
    metadata, a mapping from string keys to values. *)
Record state : Type := mkState {
  maps : gmap loc (gmap string value);
  globalMetadata : gmap string value;
  sent : list json
}.

Definition set_maps (h : gmap loc (gmap string value)) (σ : state) : state :=
  mkState h (globalMetadata σ) (sent σ).

Definition push_sent (body : json) (σ : state) : state :=
  mkState (maps σ) (globalMetadata σ) ((sent σ ++ [body])%list).

(** The map a reference stands for; the nil map reads as the empty one. *)
Definition deref (m : option loc) (σ : state) : gmap string value :=
  match m with
  | Some l => default ∅ (maps σ !! l)
  | None => ∅
  end.

(** A Go call either returns, with the state it leaves, or panics. *)
Inductive run (A : Type) : Type :=
  | Ok (a : A) (σ : state)
  | Panic (msg : string).
Arguments Ok {A} a σ.
Arguments Panic {A} msg.

Definition M (A : Type) : Type := state -> run A.

Definition ret {A : Type} (a : A) : M A := λ σ, Ok a σ.

Definition bind {A B : Type} (c : M A) (k : A -> M B) : M B :=
  λ σ, match c σ with
       | Ok a σ1 => k a σ1
       | Panic msg => Panic msg
       end.

Notation "x <- c ;; k" := (bind c (fun x => k))
  (at level 100, c at next level, right associativity).
Notation "c ;; k" := (bind c (fun _ => k))
  (at level 100, right associativity).

(** [len(m)] *)
Definition len (m : option loc) : M nat := λ σ, Ok (size (deref m σ)) σ.

(** [m[k] = v]; the Go runtime panics on a nil map. *)
Definition mapassign (m : option loc) (k : string) (v : value) : M unit :=
  λ σ, match m with
       | Some l =>
           match maps σ !! l with
           | Some mm => Ok tt (set_maps (<[l := <[k := v]> mm]> (maps σ)) σ)
           | None => Panic "assignment to entry in nil map"
           end
       | None => Panic "assignment to entry in nil map"
       end.

(** [map[string]interface{}{}] *)
Definition makemap : M (option loc) :=
  λ σ, let l := fresh (dom (maps σ)) in Ok (Some l) (set_maps (<[l := ∅]> (maps σ)) σ).

(** ** The operations of [event.go] *)

(** [SetGroup], [SetActor], [SetTarget], [SetLocation] have pointer
    receivers: the caller's event is the one changed. *)
Definition SetGroup `{Auditable A} (group : A) (e : Event) : Event :=
  mkEvent (ToAuditableID group) (Action_ e) (ActionType_ e) (ActorName e) (ActorID e)
          (Location e) (OccuredAt e) (TargetName e) (TargetID e) (Metadata e).

Definition SetActor `{Auditable A} (actor : A) (e : Event) : Event :=
  let e1 := mkEvent (Group e) (Action_ e) (ActionType_ e) (ToAuditableName actor) (ActorID e)
                    (Location e) (OccuredAt e) (TargetName e) (TargetID e) (Metadata e) in
  mkEvent (Group e1) (Action_ e1) (ActionType_ e1) (ActorName e1) (ToAuditableID actor)
          (Location e1) (OccuredAt e1) (TargetName e1) (TargetID e1) (Metadata e1).

Definition SetTarget `{Auditable A} (target : A) (e : Event) : Event :=
  let e1 := mkEvent (Group e) (Action_ e) (ActionType_ e) (ActorName e) (ActorID e)
                    (Location e) (OccuredAt e) (ToAuditableName target) (TargetID e) (Metadata e) in
  mkEvent (Group e1) (Action_ e1) (ActionType_ e1) (ActorName e1) (ActorID e1)
          (Location e1) (OccuredAt e1) (TargetName e1) (ToAuditableID target) (Metadata e1).

Definition SetLocation (location : string) (e : Event) : Event :=
  mkEvent (Group e) (Action_ e) (ActionType_ e) (ActorName e) (ActorID e)
          location (OccuredAt e) (TargetName e) (TargetID e) (Metadata e).

(** What the process reads from its host when an event is made:
    [os.Hostname()] and [time.Now().UTC()]. *)
Record host : Type := mkHost {
  os_Hostname : error + string;
  time_Now : Time
}.

Definition NewEvent (w : host) (action : Action) (actionType : ActionType) : M Event :=
  let location := match os_Hostname w with inr name => name | inl _ => "" end in
  m <- makemap ;;
  ret (mkEvent "" action actionType "" "" location (time_Now w) "" "" m).

Definition capacity_error : error :=
  errors_New "attempted to add over 500 properties to metadata, ignoring".

(** [addMetadata]: value receiver; the writes go to the shared map. *)
Definition addMetadata (e : Event) (key : string) (v : value) : M (option error) :=
  n <- len (Metadata e) ;;
  if decide (500 <= n) then ret (Some capacity_error)
  else
    match v with
    | VEntity name id _ =>
        let nameKey := key ++ "_name" in
        let idKey := key ++ "_id" in
        mapassign (Metadata e) nameKey (VString name) ;;
        mapassign (Metadata e) idKey (VString id) ;;
        ret None
    | _ =>
        mapassign (Metadata e) key v ;;
        ret None
    end.

(** The loop of [AddMetadata] over the entries of [metadata], in the
    order the runtime visits them. *)
Fixpoint AddMetadata_entries (e : Event) (entries : list (string * value))
    : M (option error) :=
  match entries with
  | [] => ret None
  | (k, v) :: rest =>
      err <- addMetadata e k v ;;
      match err with
      | Some _ => ret err
      | None => AddMetadata_entries e rest
      end
  end.

(** ** [net/http] requests *)

Definition is_lower (c : ascii) : bool :=
  let n := nat_of_ascii c in (97 <=? n)%nat && (n <=? 122)%nat.
Definition is_upper (c : ascii) : bool :=
  let n := nat_of_ascii c in (65 <=? n)%nat && (n <=? 90)%nat.
Definition is_digit (c : ascii) : bool :=
  let n := nat_of_ascii c in (48 <=? n)%nat && (n <=? 57)%nat.

Definition validHeaderFieldByte (c : ascii) : bool :=
  is_lower c || is_upper c || is_digit c
  || bool_decide (c ∈ list_ascii_of_string "!#$%&'*+-.^_`|~").

Fixpoint canonical_from (upper : bool) (s : string) : string :=
  match s with
  | EmptyString => EmptyString
  | String c r =>
      let c' := if upper && is_lower c then ascii_of_nat (nat_of_ascii c - 32)
                else if negb upper && is_upper c then ascii_of_nat (nat_of_ascii c + 32)
                else c in
      String c' (canonical_from (bool_decide (c' = "-"%char)) r)
  end.

(** [textproto.CanonicalMIMEHeaderKey] *)
Definition CanonicalMIMEHeaderKey (s : string) : string :=
  if forallb validHeaderFieldByte (list_ascii_of_string s)
  then canonical_from true s else s.

(** [http.Header.Get]: the first value under the canonical key, or the
    empty string. *)
Definition Header_Get (h : gmap string (list string)) (key : string) : string :=
  match h !! CanonicalMIMEHeaderKey key with
  | Some (v :: _) => v
  | _ => ""
  end.

(** What [NewEventWithHTTP] reads of an [*http.Request]; [URL] is
    [r.URL.String()]. *)
Record Request : Type := mkRequest {
  Method : string;
  URL : string;
  RemoteAddr : string;
  Header : gmap string (list string)
}.

(** ** [encoding/json] on an event *)

(** [encoding/json] writes the keys of a map in sorted order. *)
Definition key_le {A : Type} (x y : string * A) : Prop := String.le x.1 y.1.

#[global] Instance key_le_dec {A : Type} : RelDecision (@key_le A).
Proof. intros x y. unfold key_le. apply _. Defined.

Fixpoint encode_members (l : list (string * value)) : option (list (string * json)) :=
  match l with
  | [] => Some []
  | (k, v) :: r =>
      match encode v, encode_members r with
      | Some j, Some js => Some ((k, j) :: js)
      | _, _ => None
      end
  end.

Definition encode_map (m : option loc) (σ : state) : option json :=
  match m with
  | None => Some JNull
  | Some _ => JObject <$> encode_members (merge_sort key_le (map_to_list (deref m σ)))
  end.

(** [json.Marshal(e)]: the fields in the order of the struct, under
    their [json] tags.  It reads the store and leaves it as it is. *)
Definition marshal (e : Event) (σ : state) : error + json :=
  match Time_MarshalJSON (OccuredAt e) with
  | inl err => inl err
  | inr occured =>
      match encode_map (Metadata e) σ with
      | None => inl json_UnsupportedTypeError
      | Some metadata =>
          inr (JObject [("group", JString (Group e));
                        ("action", JString (Action_ e));
                        ("action_type", JString (ActionType_ e));
                        ("actor_name", JString (ActorName e));
                        ("actor_id", JString (ActorID e));
                        ("location", JString (Location e));
                        ("occured_at", occured);
                        ("target_name", JString (TargetName e));
                        ("target_id", JString (TargetID e));
                        ("metadata", metadata)])
      end
  end.

Definition json_Marshal (e : Event) : M (error + json) := λ σ, Ok (marshal e σ) σ.

(** The member of an object under a name. *)
Definition member (name : string) (j : json) : option json :=
  match j with
  | JObject ms =>
      match list_find (λ kv, kv.1 = name) ms with
      | Some (_, kv) => Some kv.2
      | None => None
      end
  | _ => None
  end.

Section Auditlog.

(** The order in which a [range] loop visits a map is the runtime's
    choice; all that is known is that every entry comes once. *)
Variable range : gmap string value -> list (string * value).

(** Modelled from the spec: [client.PublishEvent] is not in this file;
    the spec gives it as [publishEvent(serializedBytes)] answering
    success or a transport error.  Its answer may depend on what was
    sent before. *)
Variable transport : list json -> json -> option error.

Definition client_PublishEvent (body : json) : M (option error) :=
  λ σ, Ok (transport (sent σ) body) (push_sent body σ).

Definition AddMetadata (e : Event) (metadata : gmap string value) : M (option error) :=
  AddMetadata_entries e (range metadata).

Definition NewEventWithHTTP (w : host) (action : Action) (actionType : ActionType)
    (r : Request) : M Event :=
  event <- NewEvent w action actionType ;;
  let event := SetLocation (RemoteAddr r) event in
  let metadata : gmap string value :=
    <["request_url" := VString (URL r)]> (<["http_method" := VString (Method r)]> ∅) in
  let userAgent := Header_Get (Header r) "User-Agent" in
  let metadata :=
    if decide (userAgent ≠ "") then <["user_agent" := VString userAgent]> metadata
    else metadata in
  let requestID := Header_Get (Header r) "X-Request-ID" in
  let metadata :=
    if decide (requestID ≠ "") then <["request_id" := VString requestID]> metadata
    else metadata in
  AddMetadata event metadata ;;
  ret event.

Definition NewEventWithMetadata (w : host) (action : Action) (actionType : ActionType)
    (metadata : gmap string value) : M (Event * option error) :=
  event <- NewEvent w action actionType ;;
  err <- AddMetadata event metadata ;;
  match err with
  | Some _ => ret (Event_zero, err)
  | None => ret (event, None)
  end.

(** The loop of [Publish] over [globalMetadata]. *)
Fixpoint assign_entries (m : option loc) (entries : list (string * value)) : M unit :=
  match entries with
  | [] => ret tt
  | (k, v) :: rest => mapassign m k v ;; assign_entries m rest
  end.

Definition Publish (e : Event) : M (option error) :=
  g <- (λ σ, Ok (globalMetadata σ) σ) ;;
  assign_entries (Metadata e) (range g) ;;
  body <- json_Marshal e ;;
  match body with
  | inl err => ret (Some err)
  | inr body => client_PublishEvent body
  end.

End Auditlog.

(** ** Values used in the examples *)

(** The entities of the package documentation: a name and an id. *)
Record entity : Type := mkEntity { entity_name : string; entity_id : string }.

#[global] Instance entity_Auditable : Auditable entity :=
  {| ToAuditableName := entity_name; ToAuditableID := entity_id |}.

(** A map of [n] literal entries under the keys ["0"], ["1"], ... *)
Definition filler (n : nat) : gmap string value :=
  list_to_map ((λ i : nat, (pretty i, VInt (Z.of_nat i))) <$> seq 0 n).

Definition state_of (mm : gmap string value) : state :=
  mkState {[ 1%positive := mm ]} ∅ [].

Definition event_at (l : loc) : Event :=
  mkEvent "" "user.login" Create "" "" "" Time_zero "" "" (Some l).

(** What [addMetadata] writes into a map that has room. *)
Definition put (mm : gmap string value) (key : string) (v : value) : gmap string value :=
  match v with
  | VEntity name id _ => <[key ++ "_id" := VString id]> (<[key ++ "_name" := VString name]> mm)
  | _ => <[key := v]> mm
  end.

(** The state of a process that has allocated no map yet. *)
Definition state_init : state := mkState ∅ ∅ [].

Definition host_readme : host :=
  mkHost (inr "app-fe1.aws.amazon.com") (mkTime 2019 5 1 1 15 55 619355000).

Definition user_1 : entity := mkEntity "user@email.com" "user_1".
Definition organization_1 : entity := mkEntity "workos" "organization_1".

(** A batch of three literals, for an event that has room for one. *)
Definition batch3 : gmap string value :=
  <["a" := VInt 1]> (<["b" := VInt 2]> (<["c" := VInt 3]> ∅)).

(** The event [NewEvent] makes first in a fresh process on the host of
    the package documentation. *)
Definition event_new : Event :=
  mkEvent "" "user.login" Create "" "" "app-fe1.aws.amazon.com"
          (mkTime 2019 5 1 1 15 55 619355000) "" "" (Some 1%positive).

(** The state a batch of 501 literals leaves behind on that event. *)
Definition state_overfull : state :=
  match AddMetadata_entries event_new (map_to_list (filler 501)) (state_of ∅) with
  | Ok _ σ => σ
  | Panic _ => state_init
  end.

(** A transport that accepts every body. *)
Definition transport_ok : list json -> json -> option error := λ _ _, None.

(** A process with one event map, whose [hostname] entry collides with
    a default. *)
Definition state_defaults : state :=
  mkState {[ 1%positive := {[ "hostname" := VString "laptop" ]} ]}
          {[ "hostname" := VString "app-fe1.aws.amazon.com" ]} [].

Definition body_defaults : json :=
  JObject [("group", JString ""); ("action", JString "user.login");
           ("action_type", JString "C"); ("actor_name", JString "");
           ("actor_id", JString ""); ("location", JString "app-fe1.aws.amazon.com");
           ("occured_at", JString "2019-05-01T01:15:55.619355Z");
           ("target_name", JString ""); ("target_id", JString "");
           ("metadata", JObject [("hostname", JString "app-fe1.aws.amazon.com")])].

(** A request that carries neither a [User-Agent] nor an [X-Request-ID]
    header. *)
Definition request_bare : Request :=
  mkRequest "PUT" "http://localhost/tweet/update" "172.31.255.255" ∅.



(** The first example of the package documentation: a login event of
    [user_1] in [organization_1], located by hand. *)
Definition login_event : M Event :=
  event <- NewEvent host_readme "user.login" Create ;;
  let event := SetGroup organization_1 event in
  let event := SetActor user_1 event in
  let event := SetTarget user_1 event in
  let event := SetLocation "1.1.1.1" event in
  ret event.

(** A batch of two describable values, one of them under the key that
    the other expands to. *)
Definition batch_entities : gmap string value :=
  <["actor" := as_value user_1 VNil]> (<["actor_name" := as_value organization_1 VNil]> ∅).

(** A process whose one event map is full, with one default to merge. *)
Definition state_crowded : state :=
  mkState {[ 1%positive := filler 500 ]}
          {[ "hostname" := VString "app-fe1.aws.amazon.com" ]} [].

Definition state_published : state :=
  match Publish map_to_list transport_ok (event_at 1%positive) state_crowded with
  | Ok _ σ => σ
  | Panic _ => state_crowded
  end.

(** A process whose one default is a describable value. *)
Definition state_actor : state :=
  mkState {[ 1%positive := ∅ ]}
          {[ "actor" := VEntity "user@email.com" "user_1" VNil ]} [].

Definition state_actor_published : state :=
  match Publish map_to_list transport_ok (event_at 1%positive) state_actor with
  | Ok _ σ => σ
  | Panic _ => state_actor
  end.





(** The assignments [addMetadata] makes for one entry, in order. *)
Definition expand (kv : string * value) : list (string * value) :=
  match kv.2 with
  | VEntity name id _ => [(kv.1 ++ "_name", VString name); (kv.1 ++ "_id", VString id)]
  | _ => [kv]
  end.

(** [σ'] differs from [σ] at most in the map [m] refers to. *)
Definition only_map_changed (m : option loc) (σ σ' : state) : Prop :=
  (forall l, m <> Some l -> maps σ' !! l = maps σ !! l) /\
  globalMetadata σ' = globalMetadata σ /\
  sent σ' = sent σ.

(** ** The SSO client: [init] and [GetAuthorizationURL] *)

Module Sso.

(** [strings.HasSuffix] and [strings.TrimSuffix] *)
Definition HasSuffix (s suffix : string) : bool :=
  (String.length suffix <=? String.length s)%nat
  && String.eqb (substring (String.length s - String.length suffix)
                           (String.length suffix) s) suffix.

Definition TrimSuffix (s suffix : string) : string :=
  if HasSuffix s suffix
  then substring 0 (String.length s - String.length suffix) s
  else s.

(** [url.QueryEscape]: letters, digits and [-_.~] stay, a space becomes
    [+], every other byte becomes [%XX]. *)
Definition hex_digit (n : N) : ascii :=
  match String.get (N.to_nat n) "0123456789ABCDEF" with
  | Some c => c
  | None => "0"%char
  end.

Definition shouldEscape (c : ascii) : bool :=
  negb (is_lower c || is_upper c || is_digit c
        || bool_decide (c ∈ list_ascii_of_string "-_.~")).

Fixpoint QueryEscape (s : string) : string :=
  match s with
  | EmptyString => EmptyString
  | String c r =>
      if shouldEscape c then
        if bool_decide (c = " "%char) then String "+" (QueryEscape r)
        else String "%" (String (hex_digit (N_of_ascii c / 16))
                           (String (hex_digit (N_of_ascii c mod 16)) (QueryEscape r)))
      else String c (QueryEscape r)
  end.

(** [url.Values] and its [Set] *)
Definition Values : Type := gmap string (list string).

Definition Values_Set (key value : string) (v : Values) : Values := <[key := [value]]> v.

(** [url.Values.Encode], with the escaping as a parameter: the pairs
    [key=value] in the order of the sorted keys, joined by [&]. *)
Definition Encode_with (esc : string -> string) (v : Values) : string :=
  String.concat "&"
    (merge_sort key_le (map_to_list v)
       ≫= λ kvs, (λ x, esc kvs.1 ++ "=" ++ esc x) <$> kvs.2).

Definition Encode (v : Values) : string := Encode_with QueryEscape v.

(** What the package reads and writes of a [*url.URL]. *)
Record URL : Type := mkURL {
  Scheme : string;
  Host : string;
  Path : string;
  RawQuery : string
}.

(** [http.Client], by its timeout in seconds. *)
Record http_Client : Type := mk_http_Client { Timeout : N }.

(** [Client]; [once] tells whether [c.once] has run, [None] is the nil
    [HTTPClient]. *)
Record Client : Type := mkClient {
  APIKey : string;
  ProjectID : string;
  RedirectURI : string;
  Endpoint : string;
  HTTPClient : option http_Client;
  once : bool;
  authorizationURLEndpoint : string;
  profileEndpoint : string
}.

Definition init (c : Client) : Client :=
  let endpoint := if decide (Endpoint c = "") then "https://api.workos.com" else Endpoint c in
  let endpoint := TrimSuffix endpoint "/" in
  mkClient (APIKey c) (ProjectID c) (RedirectURI c) endpoint
           (match HTTPClient c with
            | None => Some (mk_http_Client 15)
            | Some h => Some h
            end)
           (once c)
           (endpoint ++ "/sso/authorize")
           (endpoint ++ "/sso/token").

(** [c.once.Do(c.init)], for calls that come one after the other. *)
Definition once_Do_init (c : Client) : Client :=
  if once c then c
  else
    let c := init c in
    mkClient (APIKey c) (ProjectID c) (RedirectURI c) (Endpoint c) (HTTPClient c)
             true (authorizationURLEndpoint c) (profileEndpoint c).

Record GetAuthorizationURLOptions : Type := mkOptions {
  Domain : string;
  Provider : string;
  State : string
}.

Definition incomplete_arguments : error :=
  errors_New "incomplete arguments: missing domain or provider".

Section WithParser.

(** [url.ParseRequestURI] is taken as it is given. *)
Variable ParseRequestURI : string -> error + URL.

(** [GetAuthorizationURL]: the client as the call leaves it, and what
    the call returns. *)
Definition GetAuthorizationURL (c : Client) (opts : GetAuthorizationURLOptions)
    : Client * (error + URL) :=
  let c := once_Do_init c in
  let query : Values := ∅ in
  let query := Values_Set "client_id" (ProjectID c) query in
  let query := Values_Set "redirect_uri" (RedirectURI c) query in
  let query := Values_Set "response_type" "code" query in
  if decide (Domain opts = "" /\ Provider opts = "") then (c, inl incomplete_arguments)
  else
    let query :=
      if decide (Provider opts <> "") then Values_Set "provider" (Provider opts) query
      else query in
    let query :=
      if decide (Domain opts <> "") then Values_Set "domain" (Domain opts) query
      else query in
    let query :=
      if decide (State opts <> "") then Values_Set "state" (State opts) query
      else query in
    match ParseRequestURI (authorizationURLEndpoint c) with
    | inl err => (c, inl err)
    | inr u => (c, inr (mkURL (Scheme u) (Host u) (Path u) (Encode query)))
    end.

End WithParser.

(** A parser for the examples: it knows the default endpoint. *)
Definition parse_default (s : string) : error + URL :=
  if decide (s = "https://api.workos.com/sso/authorize")
  then inr (mkURL "https" "api.workos.com" "/sso/authorize" "")
  else inl (errors_New "invalid URI for request").

Definition client_new : Client :=
  mkClient "sk_test" "project_123" "https://foo.com/callback" "" None false "" "".

End Sso.

(** * Properties *)

(** ** The host libraries on the values of the package documentation *)

Example Time_MarshalJSON_readme :
  Time_MarshalJSON (mkTime 2019 5 1 1 15 55 619355000)
  = inr (JString "2019-05-01T01:15:55.619355Z").
Proof. vm_compute. reflexivity. Qed.

Example Time_MarshalJSON_zero :
  Time_MarshalJSON Time_zero = inr (JString "0001-01-01T00:00:00Z").
Proof. vm_compute. reflexivity. Qed.

Example canonical_request_id : CanonicalMIMEHeaderKey "X-Request-ID" = "X-Request-Id".
Proof. vm_compute. reflexivity. Qed.

Example canonical_user_agent : CanonicalMIMEHeaderKey "User-Agent" = "User-Agent".
Proof. vm_compute. reflexivity. Qed.


Lemma set_maps_id σ : set_maps (maps σ) σ = σ.
Proof. by destruct σ. Qed.

Lemma deref_set_maps l mm h σ : deref (Some l) (set_maps (<[l := mm]> h) σ) = mm.
Proof. unfold deref, set_maps; simpl. by rewrite lookup_insert_eq. Qed.

Lemma mapassign_alloc l mm k v σ :
  maps σ !! l = Some mm ->
  mapassign (Some l) k v σ = Ok tt (set_maps (<[l := <[k := v]> mm]> (maps σ)) σ).
Proof. intros Hl. unfold mapassign. by rewrite Hl. Qed.

Lemma set_maps_twice l m1 m2 σ :
  set_maps (<[l := m2]> (maps (set_maps (<[l := m1]> (maps σ)) σ)))
           (set_maps (<[l := m1]> (maps σ)) σ)
  = set_maps (<[l := m2]> (maps σ)) σ.
Proof. unfold set_maps; simpl. by rewrite insert_insert_eq. Qed.

Lemma addMetadata_spec e l mm k v σ :
  Metadata e = Some l -> maps σ !! l = Some mm ->
  addMetadata e k v σ =
    if decide (500 <= size mm) then Ok (Some capacity_error) σ
    else Ok None (set_maps (<[l := put mm k v]> (maps σ)) σ).
Proof.
  intros He Hl. unfold addMetadata, bind, len, deref. rewrite He, Hl.
  cbn [default id]. destruct (decide (500 <= size mm)); [done|].
  destruct v; cbn [put]; rewrite (mapassign_alloc _ _ _ _ _ Hl); try done.
  erewrite mapassign_alloc; [|apply lookup_insert_eq].
  unfold ret. by rewrite set_maps_twice.
Qed.

(** The only error [addMetadata] returns is the capacity error, and it
    returns it with nothing written. *)
Lemma addMetadata_error e k v σ err σ' :
  addMetadata e k v σ = Ok (Some err) σ' ->
  err = capacity_error /\ σ' = σ /\ 500 <= size (deref (Metadata e) σ).
Proof.
  unfold addMetadata, bind, len.
  destruct (decide (500 <= size (deref (Metadata e) σ))) as [Hfull|Hroom].
  - unfold ret. intros [= <- <-]. done.
  - destruct v; unfold mapassign, ret;
      destruct (Metadata e) as [ref|]; try discriminate;
      destruct (maps σ !! ref) as [mm|]; try discriminate;
      cbn; try discriminate;
      rewrite ?lookup_insert_eq; discriminate.
Qed.

(** A successful [addMetadata] wrote into an allocated map. *)
Lemma addMetadata_done e k v σ σ' :
  addMetadata e k v σ = Ok None σ' ->
  deref (Metadata e) σ' = put (deref (Metadata e) σ) k v.
Proof.
  intros Hrun. destruct (Metadata e) as [l|] eqn:He.
  - destruct (maps σ !! l) as [mm|] eqn:Hl.
    + rewrite (addMetadata_spec _ _ _ _ _ _ He Hl) in Hrun.
      destruct (decide (500 <= size mm)); [discriminate|].
      injection Hrun as <-. rewrite deref_set_maps.
      unfold deref. by rewrite Hl.
    + revert Hrun. unfold addMetadata, bind, len, deref. rewrite He, Hl.
      cbn [default id]. rewrite map_size_empty.
      destruct (decide (500 <= 0)); [lia|].
      destruct v; unfold mapassign; rewrite Hl; discriminate.
  - revert Hrun. unfold addMetadata, bind, len, deref. rewrite He.
    rewrite map_size_empty.
    destruct (decide (500 <= 0)); [lia|].
    destruct v; unfold mapassign; discriminate.
Qed.

Lemma AddMetadata_entries_cons e k v rest σ :
  AddMetadata_entries e ((k, v) :: rest) σ =
    match addMetadata e k v σ with
    | Ok (Some err) σ1 => Ok (Some err) σ1
    | Ok None σ1 => AddMetadata_entries e rest σ1
    | Panic msg => Panic msg
    end.
Proof.
  cbn [AddMetadata_entries]. unfold bind.
  destruct (addMetadata e k v σ) as [[err|] σ1|]; done.
Qed.

Lemma AddMetadata_entries_app e pre rest σ σ1 :
  AddMetadata_entries e pre σ = Ok None σ1 ->
  AddMetadata_entries e (pre ++ rest)%list σ = AddMetadata_entries e rest σ1.
Proof.
  revert σ. induction pre as [|[k v] pre IH]; intros σ.
  - cbn. unfold ret. by intros [= ->].
  - rewrite <- app_comm_cons, !AddMetadata_entries_cons.
    destruct (addMetadata e k v σ) as [[err|] σ2|]; try discriminate.
    apply IH.
Qed.

(** An error of the loop comes from one entry: those before it were
    written, and the state is the one they left. *)
Lemma AddMetadata_entries_error e entries σ err σ' :
  AddMetadata_entries e entries σ = Ok (Some err) σ' ->
  exists pre k v post,
    entries = (pre ++ (k, v) :: post)%list /\
    AddMetadata_entries e pre σ = Ok None σ' /\
    addMetadata e k v σ' = Ok (Some err) σ'.
Proof.
  revert σ. induction entries as [|[k v] rest IH]; intros σ.
  - cbn. unfold ret. discriminate.
  - rewrite AddMetadata_entries_cons.
    destruct (addMetadata e k v σ) as [[err1|] σ1|] eqn:Hstep; try discriminate.
    + intros [= -> ->].
      destruct (addMetadata_error _ _ _ _ _ _ Hstep) as (_ & -> & _).
      exists [], k, v, rest. done.
    + intros Hrest. destruct (IH _ Hrest) as (pre & k' & v' & post & -> & Hpre & Hfail).
      exists ((k, v) :: pre), k', v', post. split; [done|]. split; [|done].
      rewrite AddMetadata_entries_cons, Hstep. done.
Qed.

(** The entries a successful loop visited are all in the map. *)
Lemma AddMetadata_entries_done e entries σ σ' :
  AddMetadata_entries e entries σ = Ok None σ' ->
  deref (Metadata e) σ' = foldl (λ mm kv, put mm kv.1 kv.2) (deref (Metadata e) σ) entries.
Proof.
  revert σ. induction entries as [|[k v] rest IH]; intros σ.
  - cbn. unfold ret. by intros [= ->].
  - rewrite AddMetadata_entries_cons.
    destruct (addMetadata e k v σ) as [[err1|] σ1|] eqn:Hstep; try discriminate.
    intros Hrest. rewrite (IH _ Hrest). cbn [foldl fst snd].
    by rewrite (addMetadata_done _ _ _ _ _ Hstep).
Qed.

(** ** Keys *)

Lemma key_ne_suffixed (k : string) c s : k <> k ++ String c s.
Proof. induction k as [|a k IH]; cbn; [discriminate|]. intros [= H]. auto. Qed.

Lemma nameKey_ne_idKey (k : string) : k ++ "_name" <> k ++ "_id".
Proof. intros H. apply (inj (String.app k)) in H. discriminate. Qed.

Lemma size_insert_le (mm : gmap string value) k v : size (<[k := v]> mm) <= S (size mm).
Proof. rewrite map_size_insert. destruct (mm !! k); simpl; lia. Qed.

Lemma size_insert_le_n (mm : gmap string value) k v n :
  size mm <= n -> size (<[k := v]> mm) <= S n.
Proof. pose proof (size_insert_le mm k v). lia. Qed.

Lemma size_put_le mm k v : size (put mm k v) <= 2 + size mm.
Proof.
  destruct v as [| b | n | s | vs | name id plain |]; cbn [put];
    try (match goal with
         | |- context [<[k := ?x]> mm] => pose proof (size_insert_le mm k x); lia
         end).
  pose proof (size_insert_le mm (k ++ "_name") (VString name)).
  pose proof (size_insert_le (<[k ++ "_name" := VString name]> mm) (k ++ "_id") (VString id)).
  lia.
Qed.

(** ** The cap *)

(** What does hold of the cap: one more than [500], because the check
    comes before an expansion that writes two keys. *)
Lemma addMetadata_size_bound e k v σ r σ' :
  addMetadata e k v σ = Ok r σ' ->
  size (deref (Metadata e) σ) <= 501 ->
  size (deref (Metadata e) σ') <= 501.
Proof.
  intros Hrun Hle. destruct r as [err|].
  - by destruct (addMetadata_error _ _ _ _ _ _ Hrun) as (_ & -> & _).
  - rewrite (addMetadata_done _ _ _ _ _ Hrun).
    assert (size (deref (Metadata e) σ) < 500) as Hroom.
    { revert Hrun. unfold addMetadata, bind, len.
      destruct (decide (500 <= size (deref (Metadata e) σ))); [discriminate|lia]. }
    pose proof (size_put_le (deref (Metadata e) σ) k v). lia.
Qed.

(** A literal never takes the map past the cap. *)
Lemma addMetadata_literal_size_bound e k v σ r σ' :
  is_Auditable v = false ->
  addMetadata e k v σ = Ok r σ' ->
  size (deref (Metadata e) σ) <= 500 ->
  size (deref (Metadata e) σ') <= 500.
Proof.
  intros Hv Hrun Hle. destruct r as [err|].
  - by destruct (addMetadata_error _ _ _ _ _ _ Hrun) as (_ & -> & _).
  - rewrite (addMetadata_done _ _ _ _ _ Hrun).
    assert (size (deref (Metadata e) σ) < 500) as Hroom.
    { revert Hrun. unfold addMetadata, bind, len.
      destruct (decide (500 <= size (deref (Metadata e) σ))); [discriminate|lia]. }
    destruct v; try discriminate; cbn [put];
      match goal with
      | |- context [<[k := ?x]> ?m] => pose proof (size_insert_le m k x); lia
      end.
Qed.

(** C1: with 499 entries in the map, [addMetadata] of a describable
    value under a new key passes the check, writes both keys and
    returns no error: the map then holds 501 entries, above the cap the
    claim gives. *)
Theorem addMetadata_entity_at_499_exceeds_cap :
  let e := event_at 1%positive in
  let σ := state_of (filler 499) in
  size (deref (Metadata e) σ) = 499 /\
  exists σ',
    addMetadata e "user" (VEntity "user@email.com" "user_1" VNil) σ = Ok None σ' /\
    size (deref (Metadata e) σ') = 501.
Proof.
  cbv zeta. split; [by vm_compute|].
  eexists. split; [by vm_compute|]. by vm_compute.
Qed.

(** ** Expansion of a describable value *)

(** C2, as amended: in a map with room, [addMetadata] of a describable
    value under [k] binds [k_name] to its name and [k_id] to its id and
    returns no error; every other key, the literal key [k] among them,
    keeps what it had. *)
Theorem addMetadata_entity_expands e l mm k name id plain σ :
  Metadata e = Some l -> maps σ !! l = Some mm -> size mm < 500 ->
  exists σ',
    addMetadata e k (VEntity name id plain) σ = Ok None σ' /\
    deref (Metadata e) σ' !! (k ++ "_name") = Some (VString name) /\
    deref (Metadata e) σ' !! (k ++ "_id") = Some (VString id) /\
    (forall k', k' <> k ++ "_name" -> k' <> k ++ "_id" ->
                deref (Metadata e) σ' !! k' = mm !! k') /\
    deref (Metadata e) σ' !! k = mm !! k.
Proof.
  intros He Hl Hroom. eexists. split.
  { rewrite (addMetadata_spec _ _ _ _ _ _ He Hl).
    destruct (decide (500 <= size mm)); [lia|reflexivity]. }
  rewrite He, deref_set_maps. cbn [put].
  pose proof (nameKey_ne_idKey k) as Hne.
  assert (forall k', k' <> k ++ "_name" -> k' <> k ++ "_id" ->
            <[k ++ "_id" := VString id]> (<[k ++ "_name" := VString name]> mm) !! k'
            = mm !! k') as Hframe.
  { intros k' H1 H2. by rewrite !lookup_insert_ne. }
  split; [by rewrite lookup_insert_ne, lookup_insert_eq|].
  split; [by rewrite lookup_insert_eq|].
  split; [done|].
  apply Hframe; apply key_ne_suffixed.
Qed.

Lemma addMetadata_entity_expands_witness :
  exists σ',
    addMetadata (event_at 1%positive) "user" (VEntity "user@email.com" "user_1" VNil)
                (state_of {[ "user" := VString "bob" ]}) = Ok None σ' /\
    deref (Some 1%positive) σ' !! "user_name" = Some (VString "user@email.com") /\
    deref (Some 1%positive) σ' !! "user_id" = Some (VString "user_1") /\
    (forall k', k' <> "user_name" -> k' <> "user_id" ->
                deref (Some 1%positive) σ' !! k'
                = ({[ "user" := VString "bob" ]} : gmap string value) !! k') /\
    deref (Some 1%positive) σ' !! "user"
    = ({[ "user" := VString "bob" ]} : gmap string value) !! "user".
Proof.
  apply (addMetadata_entity_expands (event_at 1%positive) 1%positive
           {[ "user" := VString "bob" ]} "user" "user@email.com" "user_1" VNil
           (state_of {[ "user" := VString "bob" ]})).
  - reflexivity.
  - reflexivity.
  - vm_compute. lia.
Defined.

(** C2, the claim as written fails: a literal stored under [user] is
    still there after a describable value is added under [user]. *)
Lemma addMetadata_entity_keeps_literal :
  exists σ',
    addMetadata (event_at 1%positive) "user" (VEntity "user@email.com" "user_1" VNil)
                (state_of {[ "user" := VString "bob" ]}) = Ok None σ' /\
    deref (Metadata (event_at 1%positive)) σ' !! "user" = Some (VString "bob").
Proof. eexists. split; by vm_compute. Qed.

(** ** Batches *)

(** C4: when [AddMetadata] returns an error, it is the capacity error,
    raised at one entry of the batch with the map full; the state left
    is the one the entries visited before it produced, so those are in
    the map and neither the failing entry nor any after it was written. *)
Theorem AddMetadata_capacity_keeps_prefix range e metadata σ err σ' :
  AddMetadata range e metadata σ = Ok (Some err) σ' ->
  err = capacity_error /\
  exists pre k v post,
    range metadata = (pre ++ (k, v) :: post)%list /\
    AddMetadata_entries e pre σ = Ok None σ' /\
    deref (Metadata e) σ'
    = foldl (λ mm kv, put mm kv.1 kv.2) (deref (Metadata e) σ) pre /\
    500 <= size (deref (Metadata e) σ').
Proof.
  unfold AddMetadata. intros Hrun.
  destruct (AddMetadata_entries_error _ _ _ _ _ Hrun)
    as (pre & k & v & post & Hsplit & Hpre & Hfail).
  destruct (addMetadata_error _ _ _ _ _ _ Hfail) as (-> & _ & Hfull).
  split; [done|]. exists pre, k, v, post.
  split; [done|]. split; [done|]. split; [|done].
  by apply AddMetadata_entries_done.
Qed.

Lemma AddMetadata_capacity_keeps_prefix_witness :
  capacity_error = capacity_error /\
  exists pre k v post,
    map_to_list batch3 = (pre ++ (k, v) :: post)%list /\
    AddMetadata_entries (event_at 1%positive) pre (state_of (filler 499))
    = Ok None (state_of (<["c" := VInt 3]> (filler 499))) /\
    deref (Some 1%positive) (state_of (<["c" := VInt 3]> (filler 499)))
    = foldl (λ mm kv, put mm kv.1 kv.2)
            (deref (Some 1%positive) (state_of (filler 499))) pre /\
    500 <= size (deref (Some 1%positive) (state_of (<["c" := VInt 3]> (filler 499)))).
Proof.
  apply (AddMetadata_capacity_keeps_prefix map_to_list (event_at 1%positive) batch3
           (state_of (filler 499)) capacity_error
           (state_of (<["c" := VInt 3]> (filler 499)))).
  vm_compute. reflexivity.
Defined.

(** C10: when the batch given to [NewEventWithMetadata] fails, the call
    returns [Event{}] — empty strings, the zero time, a nil map — and the
    capacity error; the map that [NewEvent] allocated, with the entries
    written before the failure, is not the one returned. *)
Theorem NewEventWithMetadata_capacity_zero_event
    range w action actionType metadata σ event σ1 err σ2 :
  NewEvent w action actionType σ = Ok event σ1 ->
  AddMetadata range event metadata σ1 = Ok (Some err) σ2 ->
  NewEventWithMetadata range w action actionType metadata σ
  = Ok (mkEvent "" "" "" "" "" "" (mkTime 1 1 1 0 0 0 0) "" "" None, Some err) σ2 /\
  err = capacity_error /\
  500 <= size (deref (Metadata event) σ2).
Proof.
  intros Hnew Hadd. split.
  - unfold NewEventWithMetadata, bind. rewrite Hnew, Hadd. reflexivity.
  - unfold AddMetadata in Hadd.
    destruct (AddMetadata_entries_error _ _ _ _ _ Hadd)
      as (pre & k & v & post & _ & _ & Hfail).
    destruct (addMetadata_error _ _ _ _ _ _ Hfail) as (-> & _ & Hfull).
    done.
Qed.

Lemma NewEventWithMetadata_capacity_zero_event_witness :
  NewEventWithMetadata map_to_list host_readme "user.login" Create (filler 501) state_init
  = Ok (mkEvent "" "" "" "" "" "" (mkTime 1 1 1 0 0 0 0) "" "" None, Some capacity_error)
       state_overfull /\
  capacity_error = capacity_error /\
  500 <= size (deref (Metadata event_new) state_overfull).
Proof.
  apply (NewEventWithMetadata_capacity_zero_event map_to_list host_readme
           "user.login" Create (filler 501) state_init event_new (state_of ∅)
           capacity_error state_overfull).
  - vm_compute. reflexivity.
  - vm_compute. reflexivity.
Defined.

(** ** Field setters *)

(** C7: [SetActor] gives the event the actor's name and id, leaves every
    other field as it was, and a second call with the same actor changes
    nothing more. *)
Theorem SetActor_sets_and_idempotent `{Auditable A} (d : A) (e : Event) :
  ActorName (SetActor d e) = ToAuditableName d /\
  ActorID (SetActor d e) = ToAuditableID d /\
  Group (SetActor d e) = Group e /\
  Action_ (SetActor d e) = Action_ e /\
  ActionType_ (SetActor d e) = ActionType_ e /\
  Location (SetActor d e) = Location e /\
  OccuredAt (SetActor d e) = OccuredAt e /\
  TargetName (SetActor d e) = TargetName e /\
  TargetID (SetActor d e) = TargetID e /\
  Metadata (SetActor d e) = Metadata e /\
  SetActor d (SetActor d e) = SetActor d e.
Proof. repeat split. Qed.


(** ** Serialization *)


Lemma encode_members_None l k v :
  (k, v) ∈ l -> encode v = None -> encode_members l = None.
Proof.
  induction l as [|[k' v'] l IH]; intros Hin Hv.
  - by apply elem_of_nil in Hin.
  - cbn [encode_members]. apply elem_of_cons in Hin as [[= <- <-]|Hin].
    + by rewrite Hv.
    + rewrite (IH Hin Hv). by destruct (encode v').
Qed.


(** The entries [encoding/json] writes for a map are the entries of the
    map, each once. *)
Lemma sorted_entries (mm : gmap string value) :
  NoDup (merge_sort key_le (map_to_list mm)).*1 /\
  forall k v, (k, v) ∈ merge_sort key_le (map_to_list mm) <-> mm !! k = Some v.
Proof.
  pose proof (merge_sort_Permutation key_le (map_to_list mm)) as Hperm.
  split.
  - rewrite Hperm. apply NoDup_fst_map_to_list.
  - intros k v. rewrite Hperm. apply elem_of_map_to_list.
Qed.


(** [json.Marshal] reads the maps and nothing else of the state. *)
Lemma marshal_maps e σ τ : maps σ = maps τ -> marshal e σ = marshal e τ.
Proof.
  intros Heq. unfold marshal, encode_map, deref. by rewrite Heq.
Qed.

(** A value of the map that has no encoding makes [json.Marshal] fail. *)
Lemma marshal_unencodable e l σ k v :
  Metadata e = Some l -> deref (Some l) σ !! k = Some v -> encode v = None ->
  exists err, marshal e σ = inl err.
Proof.
  intros He Hk Hv. unfold marshal, encode_map. rewrite He.
  destruct (Time_MarshalJSON (OccuredAt e)) as [err|occured]; [by eexists|].
  rewrite (encode_members_None _ k v); [by eexists| |done].
  by apply (sorted_entries (deref (Some l) σ)).
Qed.


(** ** Publishing *)

Lemma foldl_insert_list_to_map (mm : gmap string value) entries :
  NoDup entries.*1 ->
  foldl (λ m kv, <[kv.1 := kv.2]> m) mm entries = list_to_map entries ∪ mm.
Proof.
  revert mm. induction entries as [|[k v] rest IH]; intros mm Hnd.
  - cbn. by rewrite (left_id_L ∅ (∪)).
  - rewrite fmap_cons in Hnd. apply NoDup_cons in Hnd as [Hfresh Hnd].
    cbn [foldl fst snd] in *.
    rewrite (IH _ Hnd), list_to_map_cons, <- insert_union_l.
    symmetry. apply insert_union_r. by apply not_elem_of_list_to_map_1.
Qed.

Lemma assign_entries_alloc l mm entries σ :
  maps σ !! l = Some mm ->
  assign_entries (Some l) entries σ
  = Ok tt (set_maps (<[l := foldl (λ m kv, <[kv.1 := kv.2]> m) mm entries]> (maps σ)) σ).
Proof.
  revert mm σ. induction entries as [|[k v] rest IH]; intros mm σ Hl.
  - cbn. unfold ret. by rewrite insert_id, set_maps_id.
  - cbn [assign_entries foldl fst snd]. unfold bind.
    rewrite (mapassign_alloc _ _ _ _ _ Hl).
    erewrite IH; [|apply lookup_insert_eq]. by rewrite set_maps_twice.
Qed.

(** Writing into a map that was never allocated panics at the first
    entry. *)
Lemma assign_entries_nil m k v rest σ :
  (forall l, m = Some l -> maps σ !! l = None) ->
  exists msg, assign_entries m ((k, v) :: rest) σ = Panic msg.
Proof.
  intros Hnil. cbn [assign_entries]. unfold bind, mapassign.
  destruct m as [l|]; [|by eexists]. rewrite (Hnil l eq_refl). by eexists.
Qed.

Section Publishing.

Variable range : gmap string value -> list (string * value).
Hypothesis range_entries : forall m, range m ≡ₚ map_to_list m.
Variable transport : list json -> json -> option error.

Lemma range_merge g mm :
  foldl (λ m kv, <[kv.1 := kv.2]> m) mm (range g) = g ∪ mm.
Proof.
  rewrite foldl_insert_list_to_map.
  - f_equal. rewrite <- (list_to_map_to_list g) at 2.
    apply list_to_map_proper; [|apply range_entries].
    rewrite (range_entries g). apply NoDup_fst_map_to_list.
  - rewrite (range_entries g). apply NoDup_fst_map_to_list.
Qed.

(** [Publish] on an event whose map is allocated: the defaults go into
    the map, then the event is encoded, then the body is sent. *)
Lemma Publish_alloc e l mm σ :
  Metadata e = Some l -> maps σ !! l = Some mm ->
  Publish range transport e σ =
    let σ1 := set_maps (<[l := globalMetadata σ ∪ mm]> (maps σ)) σ in
    match marshal e σ1 with
    | inl err => Ok (Some err) σ1
    | inr body => Ok (transport (sent σ) body) (push_sent body σ1)
    end.
Proof.
  intros He Hl. unfold Publish, bind. rewrite He.
  rewrite (assign_entries_alloc _ _ _ _ Hl), range_merge.
  unfold json_Marshal. cbv zeta.
  destruct (marshal e _) as [err|body]; reflexivity.
Qed.

(** [Publish] that returns has written into an allocated map, or had
    nothing to write. *)
Lemma Publish_returns e σ r σ' :
  Publish range transport e σ = Ok r σ' ->
  globalMetadata σ = ∅ \/ exists l mm, Metadata e = Some l /\ maps σ !! l = Some mm.
Proof.
  intros Hrun.
  destruct (Metadata e) as [l|] eqn:He; [destruct (maps σ !! l) as [mm|] eqn:Hl|].
  - right. by exists l, mm.
  - left. destruct (range (globalMetadata σ)) as [|[k v] rest] eqn:Hrange.
    + apply map_to_list_empty_iff, Permutation_nil_r. by rewrite <- Hrange.
    + exfalso. revert Hrun. unfold Publish, bind. rewrite He, Hrange.
      destruct (assign_entries_nil (Some l) k v rest σ) as [msg ->]; [|done].
      by intros l' [= <-].
  - left. destruct (range (globalMetadata σ)) as [|[k v] rest] eqn:Hrange.
    + apply map_to_list_empty_iff, Permutation_nil_r. by rewrite <- Hrange.
    + exfalso. revert Hrun. unfold Publish, bind. rewrite He, Hrange.
      destruct (assign_entries_nil None k v rest σ) as [msg ->]; [|done].
      by intros l' [=].
Qed.


(** The merge loop of [Publish] leaves the bodies sent as they were. *)
Lemma assign_entries_sent m entries : forall σ σ1,
  assign_entries m entries σ = Ok tt σ1 -> sent σ1 = sent σ.
Proof.
  induction entries as [|[k v] rest IH]; intros σ σ1.
  - cbn. unfold ret. by intros [= <-].
  - cbn [assign_entries]. unfold bind, mapassign.
    destruct m as [l|]; [|discriminate].
    destruct (maps σ !! l) as [mm|]; [|discriminate].
    intros Hrest. by rewrite (IH _ _ Hrest).
Qed.

(** A [Publish] that returns went through the merge, the encoding and,
    if that succeeded, the transport, in this order. *)
Lemma Publish_steps e σ r σ' :
  Publish range transport e σ = Ok r σ' ->
  exists σ1,
    sent σ1 = sent σ /\ maps σ' = maps σ1 /\
    match marshal e σ1 with
    | inl err => r = Some err /\ σ' = σ1
    | inr body => r = transport (sent σ) body /\ σ' = push_sent body σ1
    end.
Proof.
  unfold Publish, bind, json_Marshal. intros Hrun.
  destruct (assign_entries _ _ σ) as [[] σ1|] eqn:Hmerge; [|discriminate].
  pose proof (assign_entries_sent _ _ _ _ Hmerge) as Hsent.
  exists σ1. split; [done|].
  destruct (marshal e σ1) as [err|body]; unfold ret, client_PublishEvent in Hrun;
    injection Hrun as <- <-; [done|]. by rewrite Hsent.
Qed.

(** C5: [Publish] returns whenever it has a map to merge into or
    nothing to merge.  When it returns, an error of [json.Marshal] — a
    metadata value without an encoding is such a case — is the error
    returned, with nothing handed to the transport; otherwise the body
    is handed over once and the transport's answer is returned as it
    is.  So it returns no error exactly when both succeed. *)
Theorem Publish_errors e σ :
  ((globalMetadata σ = ∅ \/ exists l mm, Metadata e = Some l /\ maps σ !! l = Some mm) ->
   exists r σ', Publish range transport e σ = Ok r σ') /\
  forall r σ', Publish range transport e σ = Ok r σ' ->
    (forall err, marshal e σ' = inl err -> r = Some err /\ sent σ' = sent σ) /\
    (forall k v, deref (Metadata e) σ' !! k = Some v -> encode v = None ->
       exists err, r = Some err /\ sent σ' = sent σ) /\
    (forall body, marshal e σ' = inr body ->
       r = transport (sent σ) body /\ sent σ' = (sent σ ++ [body])%list) /\
    (r = None <->
     exists body, marshal e σ' = inr body /\ transport (sent σ) body = None).
Proof.
  split.
  { intros [Hempty|(l & mm & He & Hl)].
    - unfold Publish, bind, json_Marshal. rewrite Hempty.
      assert (range ∅ = []) as ->.
      { apply Permutation_nil_r. by rewrite range_entries, map_to_list_empty. }
      cbn. destruct (marshal e σ); by do 2 eexists.
    - rewrite (Publish_alloc _ _ _ _ He Hl). cbv zeta.
      destruct (marshal e _); by do 2 eexists. }
  intros r σ' Hrun.
  destruct (Publish_steps _ _ _ _ Hrun) as (σ1 & Hsent & Hmaps & Hcase).
  rewrite <- (marshal_maps e σ' σ1 Hmaps) in Hcase.
  assert (forall err, marshal e σ' = inl err -> r = Some err /\ sent σ' = sent σ) as Hfail.
  { intros err Hm. rewrite Hm in Hcase. destruct Hcase as [-> ->]. done. }
  split; [exact Hfail|]. split; [|split; [|split]].
  - intros k v Hk Hv. destruct (Metadata e) as [l|] eqn:He.
    + destruct (marshal_unencodable e l σ' k v He Hk Hv) as [err Hm].
      exists err. by apply Hfail.
    + cbn [deref] in Hk. by rewrite lookup_empty in Hk.
  - intros body Hm. rewrite Hm in Hcase. destruct Hcase as [-> ->].
    cbn. by rewrite Hsent.
  - intros ->. destruct (marshal e σ') as [err|body]; destruct Hcase as [Hr _];
      [discriminate|]. by exists body.
  - intros (body & Hm & Hsend). rewrite Hm in Hcase. destruct Hcase as [-> _]. done.
Qed.

(** C9: [Publish] writes the defaults into the map the caller's event
    refers to.  Whatever it returns — no error, an encoding error, a
    transport error — the event's map afterwards is the old one with
    every default written over it.  A later [Publish] of the same event
    starts from that map: defaults written by the first call are
    encoded again even if [globalMetadata] no longer has them. *)
Theorem Publish_merges_in_place e l mm σ :
  Metadata e = Some l -> maps σ !! l = Some mm ->
  (exists r σ', Publish range transport e σ = Ok r σ') /\
  forall r σ', Publish range transport e σ = Ok r σ' ->
    deref (Metadata e) σ' = globalMetadata σ ∪ mm /\
    (forall k v, globalMetadata σ !! k = Some v -> deref (Metadata e) σ' !! k = Some v) /\
    forall σ2, maps σ2 = maps σ' ->
      (exists r2 σ'', Publish range transport e σ2 = Ok r2 σ'') /\
      forall r2 σ'', Publish range transport e σ2 = Ok r2 σ'' ->
        deref (Metadata e) σ'' = globalMetadata σ2 ∪ (globalMetadata σ ∪ mm) /\
        (forall body, sent σ'' = (sent σ2 ++ [body])%list -> marshal e σ'' = inr body) /\
        (forall k v, globalMetadata σ !! k = Some v -> globalMetadata σ2 !! k = None ->
                     deref (Metadata e) σ'' !! k = Some v).
Proof.
  intros He Hl.
  assert (forall τ nn, maps τ !! l = Some nn ->
            (exists r τ', Publish range transport e τ = Ok r τ') /\
            forall r τ', Publish range transport e τ = Ok r τ' ->
              deref (Metadata e) τ' = globalMetadata τ ∪ nn /\
              maps τ' = <[l := globalMetadata τ ∪ nn]> (maps τ) /\
              (forall body, sent τ' = (sent τ ++ [body])%list -> marshal e τ' = inr body))
    as Hstep.
  { intros τ nn Hnn. rewrite (Publish_alloc _ _ _ _ He Hnn). cbv zeta.
    destruct (marshal e _) as [err|body] eqn:Hm.
    - split; [by do 2 eexists|]. intros r τ' [= <- <-].
      rewrite He, deref_set_maps. split; [done|]. split; [done|].
      cbn. intros body Hsent. exfalso. apply (f_equal length) in Hsent.
      rewrite length_app in Hsent. cbn in Hsent. lia.
    - split; [by do 2 eexists|]. intros r τ' [= <- <-].
      rewrite He. split; [apply deref_set_maps|]. split; [done|].
      cbn. intros body' [= <-]%app_inv_head.
      rewrite <- Hm. by apply marshal_maps. }
  destruct (Hstep σ mm Hl) as [Hex Hall]. split; [exact Hex|].
  intros r σ' Hrun. destruct (Hall r σ' Hrun) as (Hderef & Hmaps & _).
  split; [exact Hderef|]. split.
  { intros k v Hk. rewrite Hderef. by apply lookup_union_Some_l. }
  intros σ2 Hσ2.
  assert (maps σ2 !! l = Some (globalMetadata σ ∪ mm)) as Hl2.
  { rewrite Hσ2, Hmaps. apply lookup_insert_eq. }
  destruct (Hstep σ2 _ Hl2) as [Hex2 Hall2]. split; [exact Hex2|].
  intros r2 σ'' Hrun2. destruct (Hall2 r2 σ'' Hrun2) as (Hderef2 & _ & Hbody).
  split; [exact Hderef2|]. split; [exact Hbody|].
  intros k v Hk Hgone. rewrite Hderef2.
  rewrite lookup_union_r; [|done]. by apply lookup_union_Some_l.
Qed.

End Publishing.

Lemma map_to_list_entries (m : gmap string value) : map_to_list m ≡ₚ map_to_list m.
Proof. reflexivity. Qed.


Lemma Publish_errors_witness :
  exists r σ', Publish map_to_list transport_ok event_new state_defaults = Ok r σ'.
Proof.
  apply (Publish_errors map_to_list map_to_list_entries transport_ok event_new
           state_defaults).
  right. exists 1%positive, {[ "hostname" := VString "laptop" ]}.
  split; reflexivity.
Defined.

Lemma Publish_merges_in_place_witness :
  exists r σ', Publish map_to_list transport_ok event_new state_defaults = Ok r σ'.
Proof.
  apply (Publish_merges_in_place map_to_list map_to_list_entries transport_ok event_new
           1%positive {[ "hostname" := VString "laptop" ]} state_defaults).
  - reflexivity.
  - reflexivity.
Defined.

(** ** Batches of literals *)

Lemma put_literal mm k v : is_Auditable v = false -> put mm k v = <[k := v]> mm.
Proof. by destruct v. Qed.

(** While there is room for all of them, literals are written as they
    come. *)
Lemma AddMetadata_entries_literals e l entries : forall mm σ,
  Metadata e = Some l -> maps σ !! l = Some mm ->
  Forall (λ kv, is_Auditable kv.2 = false) entries ->
  size mm + length entries <= 500 ->
  AddMetadata_entries e entries σ
  = Ok None (set_maps (<[l := foldl (λ m kv, <[kv.1 := kv.2]> m) mm entries]> (maps σ)) σ).
Proof.
  induction entries as [|[k v] rest IH]; intros mm σ He Hl Hlit Hroom.
  - cbn. unfold ret. by rewrite insert_id, set_maps_id.
  - apply Forall_cons in Hlit as [Hv Hlit]. cbn [snd length] in Hv, Hroom.
    rewrite AddMetadata_entries_cons, (addMetadata_spec _ _ _ _ _ _ He Hl).
    destruct (decide (500 <= size mm)); [lia|].
    rewrite (put_literal _ _ _ Hv).
    erewrite IH; [|done|apply lookup_insert_eq|done|].
    + cbn [foldl fst snd]. by rewrite set_maps_twice.
    + pose proof (size_insert_le mm k v). lia.
Qed.

Section Requests.

Variable range : gmap string value -> list (string * value).
Hypothesis range_entries : forall m, range m ≡ₚ map_to_list m.

(** A batch of literals that fits is copied whole, in whatever order
    its entries are visited. *)
Lemma AddMetadata_literals e l mm metadata σ :
  Metadata e = Some l -> maps σ !! l = Some mm ->
  map_Forall (λ _ v, is_Auditable v = false) metadata ->
  size mm + size metadata <= 500 ->
  AddMetadata range e metadata σ
  = Ok None (set_maps (<[l := metadata ∪ mm]> (maps σ)) σ).
Proof.
  intros He Hl Hlit Hroom. unfold AddMetadata.
  rewrite (AddMetadata_entries_literals e l (range metadata) mm σ He Hl).
  - by rewrite (range_merge range range_entries).
  - rewrite (range_entries metadata). apply Forall_forall.
    intros [k v] Hin%elem_of_map_to_list. by apply (Hlit k v).
  - rewrite (range_entries metadata), length_map_to_list. done.
Qed.

Lemma Header_Get_user_agent h :
  Header_Get h "User-Agent" = match h !! "User-Agent" with
                              | Some (v :: _) => v
                              | _ => ""
                              end.
Proof. unfold Header_Get. by rewrite canonical_user_agent. Qed.

Lemma Header_Get_request_id h :
  Header_Get h "X-Request-ID" = match h !! "X-Request-Id" with
                                | Some (v :: _) => v
                                | _ => ""
                                end.
Proof. unfold Header_Get. by rewrite canonical_request_id. Qed.

(** C6: [NewEventWithHTTP] returns an event located at the request's
    remote address, whose map holds [http_method] and [request_url],
    holds [user_agent] and [request_id] exactly when the header is
    there with a first value that is not empty, and holds no other
    key; without the two headers its keys are just [http_method] and
    [request_url]. *)
Theorem NewEventWithHTTP_seeds w action actionType r σ :
  exists event σ',
    NewEventWithHTTP range w action actionType r σ = Ok event σ' /\
    Location event = RemoteAddr r /\
    deref (Metadata event) σ' !! "http_method" = Some (VString (Method r)) /\
    deref (Metadata event) σ' !! "request_url" = Some (VString (URL r)) /\
    deref (Metadata event) σ' !! "user_agent"
    = match Header r !! "User-Agent" with
      | Some (ua :: _) => if decide (ua = "") then None else Some (VString ua)
      | _ => None
      end /\
    deref (Metadata event) σ' !! "request_id"
    = match Header r !! "X-Request-Id" with
      | Some (id :: _) => if decide (id = "") then None else Some (VString id)
      | _ => None
      end /\
    (forall k, k ∉ ["http_method"; "request_url"; "user_agent"; "request_id"] ->
               deref (Metadata event) σ' !! k = None) /\
    (Header r !! "User-Agent" = None -> Header r !! "X-Request-Id" = None ->
     dom (deref (Metadata event) σ') = {[ "http_method"; "request_url" ]}).
Proof.
  unfold NewEventWithHTTP, NewEvent, makemap, bind, ret. cbv zeta.
  rewrite Header_Get_user_agent, Header_Get_request_id.
  set (l := fresh (dom (maps σ))).
  set (σ1 := set_maps (<[l := ∅]> (maps σ)) σ).
  match goal with
  | |- context [AddMetadata range ?ev ?b σ1] => set (event := ev); set (batch := b)
  end.
  assert (map_Forall (λ _ v, is_Auditable v = false) batch /\ size batch <= 4)
    as [Hlit Hsize].
  { subst batch. split.
    - repeat case_decide;
        repeat (apply map_Forall_insert_2; [done|]); apply map_Forall_empty.
    - repeat case_decide;
        repeat apply size_insert_le_n; rewrite map_size_empty; lia. }
  rewrite (AddMetadata_literals event l ∅ batch σ1); [|done|apply lookup_insert_eq|done|].
  2: { rewrite map_size_empty. lia. }
  do 2 eexists. split; [reflexivity|]. split; [reflexivity|].
  change (Metadata event) with (Some l). rewrite deref_set_maps.
  rewrite (right_id_L ∅ (∪)). subst batch.
  destruct (Header r !! "User-Agent") as [[|ua uas]|];
    destruct (Header r !! "X-Request-Id") as [[|id ids]|];
    repeat case_decide; try congruence;
    (split_and!;
     [ by simplify_map_eq ..
     | intros k Hk; repeat (rewrite lookup_insert_ne;
                             [|intros <-; apply Hk; set_solver]); apply lookup_empty
     | intros; rewrite ?dom_insert_L, ?dom_empty_L; try set_solver ]).
Qed.

End Requests.

Lemma NewEventWithHTTP_seeds_witness :
  exists event σ',
    NewEventWithHTTP map_to_list host_readme "user.login" Create request_bare state_init
    = Ok event σ' /\
    Location event = RemoteAddr request_bare /\
    deref (Metadata event) σ' !! "http_method" = Some (VString (Method request_bare)) /\
    deref (Metadata event) σ' !! "request_url" = Some (VString (URL request_bare)) /\
    deref (Metadata event) σ' !! "user_agent"
    = match Header request_bare !! "User-Agent" with
      | Some (ua :: _) => if decide (ua = "") then None else Some (VString ua)
      | _ => None
      end /\
    deref (Metadata event) σ' !! "request_id"
    = match Header request_bare !! "X-Request-Id" with
      | Some (id :: _) => if decide (id = "") then None else Some (VString id)
      | _ => None
      end /\
    (forall k, k ∉ ["http_method"; "request_url"; "user_agent"; "request_id"] ->
               deref (Metadata event) σ' !! k = None) /\
    (Header request_bare !! "User-Agent" = None ->
     Header request_bare !! "X-Request-Id" = None ->
     dom (deref (Metadata event) σ') = {[ "http_method"; "request_url" ]}).
Proof.
  apply (NewEventWithHTTP_seeds map_to_list map_to_list_entries host_readme
           "user.login" Create request_bare state_init).
Defined.

(** ** The wire record *)




(** The record of the first example of the package documentation. *)
Example login_event_record :
  exists event σ,
    login_event state_init = Ok event σ /\
    marshal event σ
    = inr (JObject [("group", JString "organization_1");
                    ("action", JString "user.login");
                    ("action_type", JString "C");
                    ("actor_name", JString "user@email.com");
                    ("actor_id", JString "user_1");
                    ("location", JString "1.1.1.1");
                    ("occured_at", JString "2019-05-01T01:15:55.619355Z");
                    ("target_name", JString "user@email.com");
                    ("target_id", JString "user_1");
                    ("metadata", JObject [])]).
Proof. do 2 eexists. split; by vm_compute. Qed.

(** ** Batches that cannot fit *)

(** New keys, all literals, more of them than the map has room for:
    the loop ends in the capacity error, whatever the order. *)
Lemma AddMetadata_entries_overflow e l entries : forall mm σ,
  Metadata e = Some l -> maps σ !! l = Some mm ->
  Forall (λ kv, is_Auditable kv.2 = false) entries ->
  NoDup entries.*1 ->
  (forall k, k ∈ entries.*1 -> mm !! k = None) ->
  size mm <= 500 < size mm + length entries ->
  exists σ', AddMetadata_entries e entries σ = Ok (Some capacity_error) σ'.
Proof.
  induction entries as [|[k v] rest IH]; intros mm σ He Hl Hlit Hnd Hfresh Hsize.
  - cbn [length] in Hsize. lia.
  - apply Forall_cons in Hlit as [Hv Hlit]. cbn [snd length] in Hv, Hsize.
    rewrite fmap_cons in Hnd, Hfresh. cbn [fst] in Hnd, Hfresh.
    apply NoDup_cons in Hnd as [Hk Hnd].
    rewrite AddMetadata_entries_cons, (addMetadata_spec _ _ _ _ _ _ He Hl).
    destruct (decide (500 <= size mm)); [by eexists|].
    rewrite (put_literal _ _ _ Hv).
    apply (IH (<[k := v]> mm)); [done|apply lookup_insert_eq|done|done| |].
    + intros k' Hk'. rewrite lookup_insert_ne; [|by intros <-].
      apply Hfresh. by apply elem_of_cons; right.
    + rewrite map_size_insert_None; [lia|]. apply Hfresh. by apply elem_of_cons; left.
Qed.

(** More than 500 literals given to [NewEventWithMetadata]: the zero
    event and the capacity error come back, whatever the order in which
    the batch is visited. *)
Lemma NewEventWithMetadata_overflow
    (range : gmap string value -> list (string * value)) w action actionType metadata σ :
  (forall m, range m ≡ₚ map_to_list m) ->
  map_Forall (λ _ v, is_Auditable v = false) metadata ->
  500 < size metadata ->
  exists σ',
    NewEventWithMetadata range w action actionType metadata σ
    = Ok (Event_zero, Some capacity_error) σ'.
Proof.
  intros Hrange Hlit Hsize.
  unfold NewEventWithMetadata, NewEvent, makemap, bind, ret, AddMetadata.
  set (l := fresh (dom (maps σ))).
  set (σ1 := set_maps (<[l := ∅]> (maps σ)) σ).
  match goal with
  | |- context [AddMetadata_entries ?ev _ σ1] => set (event := ev)
  end.
  destruct (AddMetadata_entries_overflow event l (range metadata) ∅ σ1) as [σ' Hrun].
  - reflexivity.
  - apply lookup_insert_eq.
  - rewrite (Hrange metadata). apply Forall_forall.
    intros [k v] Hin%elem_of_map_to_list. by apply (Hlit k v).
  - rewrite (Hrange metadata). apply NoDup_fst_map_to_list.
  - intros k _. apply lookup_empty.
  - rewrite map_size_empty, (Hrange metadata), length_map_to_list. lia.
  - rewrite Hrun. by eexists.
Qed.


(** * Further properties of [event.go] *)

(** ** Construction and sharing *)

Lemma NewEvent_alloc w action actionType σ :
  exists l σ',
    NewEvent w action actionType σ
    = Ok (mkEvent "" action actionType "" ""
                  (match os_Hostname w with inr name => name | inl _ => "" end)
                  (time_Now w) "" "" (Some l)) σ' /\
    maps σ !! l = None /\
    maps σ' !! l = Some ∅ /\
    only_map_changed (Some l) σ σ'.
Proof.
  unfold NewEvent, makemap, bind, ret.
  set (l := fresh (dom (maps σ))).
  exists l, (set_maps (<[l := ∅]> (maps σ)) σ).
  split; [reflexivity|]. split.
  { apply not_elem_of_dom. apply is_fresh. }
  split; [apply lookup_insert_eq|].
  split; [|done]. intros l' Hl'. cbn. apply lookup_insert_ne. congruence.
Qed.

(** [NewEvent] fills in the action, the kind, the host name (or the empty
    string when the host has none to give) and the time, and gives the
    event an empty map that nothing referred to before; the maps that
    were there, the defaults and the bodies sent stay as they were. *)
Theorem NewEvent_fresh_map w action actionType σ :
  exists l σ',
    NewEvent w action actionType σ
    = Ok (mkEvent "" action actionType "" ""
                  (match os_Hostname w with inr name => name | inl _ => "" end)
                  (time_Now w) "" "" (Some l)) σ' /\
    maps σ !! l = None /\
    maps σ' !! l = Some ∅ /\
    only_map_changed (Some l) σ σ'.
Proof. apply NewEvent_alloc. Qed.

Lemma only_map_changed_refl m σ : only_map_changed m σ σ.
Proof. by repeat split. Qed.

Lemma only_map_changed_trans m σ1 σ2 σ3 :
  only_map_changed m σ1 σ2 -> only_map_changed m σ2 σ3 -> only_map_changed m σ1 σ3.
Proof.
  intros (H1 & H2 & H3) (H4 & H5 & H6). split; [|split; congruence].
  intros l Hl. by rewrite H4, H1.
Qed.

Lemma mapassign_frame m k v σ σ' :
  mapassign m k v σ = Ok tt σ' -> only_map_changed m σ σ'.
Proof.
  unfold mapassign. destruct m as [l|]; [|discriminate].
  destruct (maps σ !! l) as [mm|]; [|discriminate].
  intros [= <-]. split; [|done]. intros l' Hl'. cbn.
  apply lookup_insert_ne. congruence.
Qed.

Lemma addMetadata_frame e k v σ r σ' :
  addMetadata e k v σ = Ok r σ' -> only_map_changed (Metadata e) σ σ'.
Proof.
  unfold addMetadata, bind, len, ret.
  destruct (decide (500 <= size (deref (Metadata e) σ))).
  { intros [= _ <-]. apply only_map_changed_refl. }
  destruct v;
    repeat match goal with
           | |- context [mapassign ?m ?k ?v ?s] =>
               let H := fresh "Hw" in
               destruct (mapassign m k v s) as [[] ?|] eqn:H; [|discriminate];
               apply mapassign_frame in H
           end;
    intros [= _ <-]; eauto using only_map_changed_trans.
Qed.

Lemma AddMetadata_entries_frame e entries : forall σ r σ',
  AddMetadata_entries e entries σ = Ok r σ' -> only_map_changed (Metadata e) σ σ'.
Proof.
  induction entries as [|[k v] rest IH]; intros σ r σ'.
  - cbn. unfold ret. intros [= _ <-]. apply only_map_changed_refl.
  - rewrite AddMetadata_entries_cons.
    destruct (addMetadata e k v σ) as [[err|] σ1|] eqn:Hstep; [| |discriminate].
    + intros [= _ <-]. by eapply addMetadata_frame.
    + intros Hrest. eapply only_map_changed_trans; [by eapply addMetadata_frame|].
      by eapply IH.
Qed.

(** [AddMetadata], whatever it returns, writes to the event's own map
    and to nothing else: the maps of other events, the defaults and the
    bodies sent are as before. *)
Theorem AddMetadata_frame range e metadata σ r σ' :
  AddMetadata range e metadata σ = Ok r σ' ->
  only_map_changed (Metadata e) σ σ'.
Proof. apply AddMetadata_entries_frame. Qed.

Lemma AddMetadata_frame_witness :
  only_map_changed (Some 1%positive) (state_of (filler 499))
                   (state_of (<["c" := VInt 3]> (filler 499))).
Proof.
  apply (AddMetadata_frame map_to_list (event_at 1%positive) batch3
           (state_of (filler 499)) (Some capacity_error)).
  vm_compute. reflexivity.
Defined.

(** ** The nil map *)

Lemma addMetadata_nil e k v σ :
  Metadata e = None ->
  addMetadata e k v σ = Panic "assignment to entry in nil map".
Proof.
  intros He. unfold addMetadata, bind, len, deref. rewrite He, map_size_empty.
  destruct (decide (500 <= 0)); [lia|]. by destruct v.
Qed.

Lemma range_nonempty (range : gmap string value -> list (string * value)) m :
  (forall m, range m ≡ₚ map_to_list m) -> m <> ∅ -> range m <> [].
Proof.
  intros Hrange Hm Hnil. apply Hm, map_to_list_empty_iff, Permutation_nil_r.
  by rewrite <- Hnil.
Qed.

Lemma range_empty (range : gmap string value -> list (string * value)) :
  (forall m, range m ≡ₚ map_to_list m) -> range ∅ = [].
Proof.
  intros Hrange. apply Permutation_nil_r. by rewrite Hrange, map_to_list_empty.
Qed.

(** An event without a map — [Event{}], as [NewEventWithMetadata] returns
    it on an error — cannot take metadata: [AddMetadata] with anything
    in the batch panics on the first assignment.  With an empty batch it
    returns no error and does nothing. *)
Theorem AddMetadata_nil_map
    (range : gmap string value -> list (string * value)) e metadata σ :
  (forall m, range m ≡ₚ map_to_list m) ->
  Metadata e = None ->
  (metadata <> ∅ ->
   AddMetadata range e metadata σ = Panic "assignment to entry in nil map") /\
  (metadata = ∅ -> AddMetadata range e metadata σ = Ok None σ).
Proof.
  intros Hrange He. unfold AddMetadata. split.
  - intros Hm. pose proof (range_nonempty range metadata Hrange Hm) as Hne.
    destruct (range metadata) as [|[k v] rest]; [done|].
    by rewrite AddMetadata_entries_cons, (addMetadata_nil _ _ _ _ He).
  - intros ->. by rewrite (range_empty range Hrange).
Qed.

Lemma AddMetadata_nil_map_witness :
  (batch3 <> ∅ ->
   AddMetadata map_to_list Event_zero batch3 state_init
   = Panic "assignment to entry in nil map") /\
  (batch3 = ∅ -> AddMetadata map_to_list Event_zero batch3 state_init = Ok None state_init).
Proof.
  apply (AddMetadata_nil_map map_to_list Event_zero batch3 state_init).
  - apply map_to_list_entries.
  - reflexivity.
Defined.

(** [Publish] of an event without a map panics as soon as there is one
    default to merge.  With no defaults it goes through, and the record
    carries [null] for its metadata. *)
Theorem Publish_nil_map
    (range : gmap string value -> list (string * value)) transport e σ :
  (forall m, range m ≡ₚ map_to_list m) ->
  Metadata e = None ->
  (globalMetadata σ <> ∅ ->
   Publish range transport e σ = Panic "assignment to entry in nil map") /\
  (globalMetadata σ = ∅ ->
   forall body, marshal e σ = inr body ->
     Publish range transport e σ = Ok (transport (sent σ) body) (push_sent body σ) /\
     member "metadata" body = Some JNull).
Proof.
  intros Hrange He. split.
  - intros Hg. unfold Publish, bind. rewrite He.
    pose proof (range_nonempty range _ Hrange Hg) as Hne.
    destruct (range (globalMetadata σ)) as [|[k v] rest]; [done|]. reflexivity.
  - intros Hg body Hbody. unfold Publish, bind, json_Marshal.
    rewrite Hg, (range_empty range Hrange). cbn. rewrite Hbody. split; [reflexivity|].
    revert Hbody. unfold marshal, encode_map. rewrite He.
    destruct (Time_MarshalJSON (OccuredAt e)); [discriminate|].
    intros [= <-]. reflexivity.
Qed.

Lemma Publish_nil_map_witness :
  (globalMetadata state_defaults <> ∅ ->
   Publish map_to_list transport_ok Event_zero state_defaults
   = Panic "assignment to entry in nil map") /\
  (globalMetadata state_defaults = ∅ ->
   forall body, marshal Event_zero state_defaults = inr body ->
     Publish map_to_list transport_ok Event_zero state_defaults
     = Ok (transport_ok (sent state_defaults) body) (push_sent body state_defaults) /\
     member "metadata" body = Some JNull).
Proof.
  apply (Publish_nil_map map_to_list transport_ok Event_zero state_defaults).
  - apply map_to_list_entries.
  - reflexivity.
Defined.

(** ** Batches and the cap *)

Lemma AddMetadata_entries_size_bound e entries : forall σ r σ',
  AddMetadata_entries e entries σ = Ok r σ' ->
  (size (deref (Metadata e) σ) <= 501 -> size (deref (Metadata e) σ') <= 501) /\
  (Forall (λ kv, is_Auditable kv.2 = false) entries ->
   size (deref (Metadata e) σ) <= 500 -> size (deref (Metadata e) σ') <= 500).
Proof.
  induction entries as [|[k v] rest IH]; intros σ r σ'.
  - cbn. unfold ret. intros [= _ <-]. done.
  - rewrite AddMetadata_entries_cons.
    destruct (addMetadata e k v σ) as [[err|] σ1|] eqn:Hstep; [| |discriminate].
    + intros [= _ <-]. split.
      * by apply (addMetadata_size_bound _ _ _ _ _ _ Hstep).
      * intros [Hv _]%Forall_cons. by apply (addMetadata_literal_size_bound _ _ _ _ _ _ Hv Hstep).
    + intros Hrest. destruct (IH _ _ _ Hrest) as [IH1 IH2]. split.
      * intros Hle. by apply IH1, (addMetadata_size_bound _ _ _ _ _ _ Hstep).
      * intros [Hv Hlit]%Forall_cons Hle.
        by apply IH2, (addMetadata_literal_size_bound _ _ _ _ _ _ Hv Hstep).
Qed.

(** The bound [AddMetadata] does keep: a map of at most 501 entries has
    at most 501 after any batch, and a map of at most 500 has at most
    500 after a batch without describable values. *)
Theorem AddMetadata_size_bound
    (range : gmap string value -> list (string * value)) e metadata σ r σ' :
  (forall m, range m ≡ₚ map_to_list m) ->
  AddMetadata range e metadata σ = Ok r σ' ->
  (size (deref (Metadata e) σ) <= 501 -> size (deref (Metadata e) σ') <= 501) /\
  (map_Forall (λ _ v, is_Auditable v = false) metadata ->
   size (deref (Metadata e) σ) <= 500 -> size (deref (Metadata e) σ') <= 500).
Proof.
  intros Hrange Hrun. destruct (AddMetadata_entries_size_bound _ _ _ _ _ Hrun) as [H1 H2].
  split; [done|]. intros Hlit. apply H2.
  rewrite (Hrange metadata). apply Forall_forall.
  intros [k v] Hin%elem_of_map_to_list. by apply (Hlit k v).
Qed.

Lemma AddMetadata_size_bound_witness :
  (size (deref (Some 1%positive) (state_of (filler 499))) <= 501 ->
   size (deref (Some 1%positive) (state_of (<["c" := VInt 3]> (filler 499)))) <= 501) /\
  (map_Forall (λ _ v, is_Auditable v = false) batch3 ->
   size (deref (Some 1%positive) (state_of (filler 499))) <= 500 ->
   size (deref (Some 1%positive) (state_of (<["c" := VInt 3]> (filler 499)))) <= 500).
Proof.
  apply (AddMetadata_size_bound map_to_list (event_at 1%positive) batch3
           (state_of (filler 499)) (Some capacity_error)).
  - apply map_to_list_entries.
  - vm_compute. reflexivity.
Defined.

(** A map that holds 500 entries or more takes nothing: a batch that is
    not empty gets the capacity error and the state stays as it was,
    also when every key of the batch is in the map already. *)
Theorem AddMetadata_full_map
    (range : gmap string value -> list (string * value)) e metadata σ :
  (forall m, range m ≡ₚ map_to_list m) ->
  500 <= size (deref (Metadata e) σ) ->
  metadata <> ∅ ->
  AddMetadata range e metadata σ = Ok (Some capacity_error) σ.
Proof.
  intros Hrange Hfull Hne. unfold AddMetadata.
  pose proof (range_nonempty range metadata Hrange Hne) as Hentries.
  destruct (range metadata) as [|[k v] rest]; [done|].
  rewrite AddMetadata_entries_cons. unfold addMetadata, bind, len.
  by rewrite decide_True.
Qed.

Lemma AddMetadata_full_map_witness :
  AddMetadata map_to_list (event_at 1%positive) {[ "7" := VString "again" ]}
              (state_of (filler 500))
  = Ok (Some capacity_error) (state_of (filler 500)).
Proof.
  apply (AddMetadata_full_map map_to_list (event_at 1%positive)
           {[ "7" := VString "again" ]} (state_of (filler 500))).
  - apply map_to_list_entries.
  - vm_compute. lia.
  - apply (bool_decide_unpack _). by vm_compute.
Defined.

(** A batch without describable values that fits under the cap is
    copied into the map as a whole, in whatever order it is visited:
    every key of the batch gets the batch's value, every other key keeps
    its own, and no error comes back. *)
Theorem AddMetadata_copies_literals
    (range : gmap string value -> list (string * value)) e l mm metadata σ :
  (forall m, range m ≡ₚ map_to_list m) ->
  Metadata e = Some l -> maps σ !! l = Some mm ->
  map_Forall (λ _ v, is_Auditable v = false) metadata ->
  size mm + size metadata <= 500 ->
  exists σ',
    AddMetadata range e metadata σ = Ok None σ' /\
    only_map_changed (Some l) σ σ' /\
    (forall k v, metadata !! k = Some v -> deref (Some l) σ' !! k = Some v) /\
    (forall k, metadata !! k = None -> deref (Some l) σ' !! k = mm !! k).
Proof.
  intros Hrange He Hl Hlit Hroom.
  pose proof (AddMetadata_literals range Hrange e l mm metadata σ He Hl Hlit Hroom) as Hrun.
  eexists. split; [exact Hrun|]. split.
  { rewrite <- He. by eapply AddMetadata_entries_frame. }
  rewrite deref_set_maps. split.
  - intros k v Hk. by apply lookup_union_Some_l.
  - intros k Hk. by apply lookup_union_r.
Qed.

Lemma AddMetadata_copies_literals_witness :
  exists σ',
    AddMetadata map_to_list (event_at 1%positive) batch3 (state_of (filler 7)) = Ok None σ' /\
    only_map_changed (Some 1%positive) (state_of (filler 7)) σ' /\
    (forall k v, batch3 !! k = Some v -> deref (Some 1%positive) σ' !! k = Some v) /\
    (forall k, batch3 !! k = None -> deref (Some 1%positive) σ' !! k = filler 7 !! k).
Proof.
  apply (AddMetadata_copies_literals map_to_list (event_at 1%positive) 1%positive
           (filler 7) batch3 (state_of (filler 7))).
  - apply map_to_list_entries.
  - reflexivity.
  - reflexivity.
  - apply (bool_decide_unpack _). by vm_compute.
  - vm_compute. lia.
Defined.

Lemma foldl_put_literals entries : forall mm,
  Forall (λ kv, is_Auditable kv.2 = false) entries ->
  foldl (λ m kv, put m kv.1 kv.2) mm entries
  = foldl (λ m kv, <[kv.1 := kv.2]> m) mm entries.
Proof.
  induction entries as [|[k v] rest IH]; intros mm Hlit; [done|].
  apply Forall_cons in Hlit as [Hv Hlit]. cbn [foldl fst snd] in *.
  by rewrite (put_literal _ _ _ Hv), IH.
Qed.

Lemma NewEventWithMetadata_literals_run
    (range : gmap string value -> list (string * value)) w action actionType metadata σ :
  (forall m, range m ≡ₚ map_to_list m) ->
  map_Forall (λ _ v, is_Auditable v = false) metadata ->
  size metadata <= 500 ->
  exists l σ',
    NewEventWithMetadata range w action actionType metadata σ
    = Ok (mkEvent "" action actionType "" ""
                  (match os_Hostname w with inr name => name | inl _ => "" end)
                  (time_Now w) "" "" (Some l), None) σ' /\
    maps σ !! l = None /\
    maps σ' !! l = Some metadata /\
    only_map_changed (Some l) σ σ'.
Proof.
  intros Hrange Hlit Hsize.
  destruct (NewEvent_alloc w action actionType σ)
    as (l & σ1 & Hnew & Hfresh & Hl & Hframe).
  unfold NewEventWithMetadata, bind. rewrite Hnew.
  pose proof (AddMetadata_literals range Hrange
                (mkEvent "" action actionType "" ""
                   (match os_Hostname w with inr name => name | inl _ => "" end)
                   (time_Now w) "" "" (Some l)) l ∅ metadata σ1 eq_refl Hl Hlit) as Hadd.
  rewrite map_size_empty in Hadd. specialize (Hadd ltac:(lia)).
  rewrite Hadd. exists l. eexists. split; [reflexivity|]. split; [done|]. split.
  - cbn. by rewrite lookup_insert_eq, (right_id_L ∅ (∪)).
  - eapply only_map_changed_trans; [exact Hframe|].
    by apply (AddMetadata_entries_frame _ _ _ _ _ Hadd).
Qed.

(** [NewEventWithMetadata] with a batch of at most 500 entries, none of
    them describable: the event of [NewEvent] comes back with no error,
    and its map is the batch. *)
Theorem NewEventWithMetadata_literals
    (range : gmap string value -> list (string * value)) w action actionType metadata σ :
  (forall m, range m ≡ₚ map_to_list m) ->
  map_Forall (λ _ v, is_Auditable v = false) metadata ->
  size metadata <= 500 ->
  exists l σ',
    NewEventWithMetadata range w action actionType metadata σ
    = Ok (mkEvent "" action actionType "" ""
                  (match os_Hostname w with inr name => name | inl _ => "" end)
                  (time_Now w) "" "" (Some l), None) σ' /\
    maps σ !! l = None /\
    maps σ' !! l = Some metadata /\
    only_map_changed (Some l) σ σ'.
Proof. intros. by apply NewEventWithMetadata_literals_run. Qed.

Lemma NewEventWithMetadata_literals_witness :
  exists l σ',
    NewEventWithMetadata map_to_list host_readme "user.login" Create batch3 state_init
    = Ok (mkEvent "" "user.login" Create "" ""
                  (match os_Hostname host_readme with inr name => name | inl _ => "" end)
                  (time_Now host_readme) "" "" (Some l), None) σ' /\
    maps state_init !! l = None /\
    maps σ' !! l = Some batch3 /\
    only_map_changed (Some l) state_init σ'.
Proof.
  apply (NewEventWithMetadata_literals map_to_list host_readme "user.login" Create
           batch3 state_init).
  - apply map_to_list_entries.
  - apply (bool_decide_unpack _). by vm_compute.
  - vm_compute. lia.
Defined.

(** More than 500 entries, none describable, given to
    [NewEventWithMetadata]: in whatever order the batch is visited, the
    zero event and the capacity error come back, and the map that was
    made for the event is left holding exactly 500 entries of the
    batch. *)
Theorem NewEventWithMetadata_overflow_500
    (range : gmap string value -> list (string * value)) w action actionType metadata σ :
  (forall m, range m ≡ₚ map_to_list m) ->
  map_Forall (λ _ v, is_Auditable v = false) metadata ->
  500 < size metadata ->
  exists l σ',
    NewEventWithMetadata range w action actionType metadata σ
    = Ok (Event_zero, Some capacity_error) σ' /\
    maps σ !! l = None /\
    size (deref (Some l) σ') = 500 /\
    deref (Some l) σ' ⊆ metadata.
Proof.
  intros Hrange Hlit Hsize.
  destruct (NewEvent_alloc w action actionType σ) as (l & σ1 & Hnew & Hfresh & Hl & _).
  set (event := mkEvent "" action actionType "" ""
                  (match os_Hostname w with inr name => name | inl _ => "" end)
                  (time_Now w) "" "" (Some l)) in *.
  assert (Forall (λ kv, is_Auditable kv.2 = false) (range metadata)) as Hlits.
  { rewrite (Hrange metadata). apply Forall_forall.
    intros [k v] Hin%elem_of_map_to_list. by apply (Hlit k v). }
  assert (NoDup (range metadata).*1) as Hnd.
  { rewrite (Hrange metadata). apply NoDup_fst_map_to_list. }
  destruct (AddMetadata_entries_overflow event l (range metadata) ∅ σ1) as [σ' Hrun];
    [done|done|done|done|by intros; apply lookup_empty| |].
  { rewrite map_size_empty, (Hrange metadata), length_map_to_list. lia. }
  exists l, σ'. split.
  { unfold NewEventWithMetadata, bind. rewrite Hnew. unfold AddMetadata. by rewrite Hrun. }
  split; [done|].
  destruct (AddMetadata_entries_error _ _ _ _ _ Hrun)
    as (pre & k & v & post & Hsplit & Hpre & Hfail).
  destruct (addMetadata_error _ _ _ _ _ _ Hfail) as (_ & _ & Hfull).
  destruct (AddMetadata_entries_size_bound _ _ _ _ _ Hrun) as [_ Hle].
  change (Metadata event) with (Some l) in *.
  split.
  { assert (size (deref (Some l) σ1) <= 500) as Hstart.
    { unfold deref. rewrite Hl. cbn. rewrite map_size_empty. lia. }
    specialize (Hle Hlits Hstart). lia. }
  pose proof (AddMetadata_entries_done _ _ _ _ Hpre) as Hdone.
  change (Metadata event) with (Some l) in Hdone. rewrite Hdone.
  assert (deref (Some l) σ1 = ∅) as -> by (unfold deref; by rewrite Hl).
  rewrite Hsplit in Hlits, Hnd.
  apply Forall_app in Hlits as [Hlits _].
  rewrite fmap_app in Hnd. apply NoDup_app in Hnd as (Hnd & _ & _).
  rewrite (foldl_put_literals _ _ Hlits), (foldl_insert_list_to_map _ _ Hnd).
  rewrite (right_id_L ∅ (∪)). apply map_subseteq_spec.
  intros k' v' Hin%elem_of_list_to_map; [|done].
  apply elem_of_map_to_list. rewrite <- (Hrange metadata), Hsplit.
  apply elem_of_app. by left.
Qed.

Lemma NewEventWithMetadata_overflow_500_witness :
  exists l σ',
    NewEventWithMetadata map_to_list host_readme "user.login" Create (filler 501) state_init
    = Ok (Event_zero, Some capacity_error) σ' /\
    maps state_init !! l = None /\
    size (deref (Some l) σ') = 500 /\
    deref (Some l) σ' ⊆ filler 501.
Proof.
  apply (NewEventWithMetadata_overflow_500 map_to_list host_readme "user.login" Create
           (filler 501) state_init).
  - apply map_to_list_entries.
  - apply (bool_decide_unpack _). by vm_compute.
  - vm_compute. lia.
Defined.


(** ** Expansion inside a batch *)

(** With room for two keys per entry, the loop writes every entry. *)
Lemma AddMetadata_entries_room e l entries : forall mm σ,
  Metadata e = Some l -> maps σ !! l = Some mm ->
  size mm + 2 * length entries <= 500 ->
  AddMetadata_entries e entries σ
  = Ok None (set_maps (<[l := foldl (λ m kv, put m kv.1 kv.2) mm entries]> (maps σ)) σ).
Proof.
  induction entries as [|[k v] rest IH]; intros mm σ He Hl Hroom.
  - cbn. unfold ret. by rewrite insert_id, set_maps_id.
  - cbn [length] in Hroom.
    rewrite AddMetadata_entries_cons, (addMetadata_spec _ _ _ _ _ _ He Hl).
    destruct (decide (500 <= size mm)); [lia|].
    erewrite IH; [|done|apply lookup_insert_eq|].
    + cbn [foldl fst snd]. by rewrite set_maps_twice.
    + pose proof (size_put_le mm k v). lia.
Qed.

(** A batch that holds a describable value under [k] and a literal
    under [k_name] has two outcomes: visited in this order the literal
    stays under [k_name], visited in the other the name does. *)
Theorem AddMetadata_order_matters e l mm k name id plain v σ :
  Metadata e = Some l -> maps σ !! l = Some mm ->
  size mm + 4 <= 500 -> is_Auditable v = false ->
  exists σ1 σ2,
    AddMetadata_entries e [(k, VEntity name id plain); (k ++ "_name", v)] σ = Ok None σ1 /\
    AddMetadata_entries e [(k ++ "_name", v); (k, VEntity name id plain)] σ = Ok None σ2 /\
    deref (Some l) σ1 !! (k ++ "_name") = Some v /\
    deref (Some l) σ2 !! (k ++ "_name") = Some (VString name).
Proof.
  intros He Hl Hroom Hv. do 2 eexists.
  split; [by apply (AddMetadata_entries_room e l _ mm σ He Hl)|].
  split; [by apply (AddMetadata_entries_room e l _ mm σ He Hl)|].
  rewrite !deref_set_maps. cbn [foldl fst snd]. rewrite !(put_literal _ _ _ Hv).
  cbn [put]. split; [apply lookup_insert_eq|].
  rewrite lookup_insert_ne; [apply lookup_insert_eq|].
  intros Heq. by apply (nameKey_ne_idKey k).
Qed.

Lemma AddMetadata_order_matters_witness :
  exists σ1 σ2,
    AddMetadata_entries (event_at 1%positive)
      [("user", VEntity "user@email.com" "user_1" VNil); ("user" ++ "_name", VString "bob")]
      (state_of (filler 7)) = Ok None σ1 /\
    AddMetadata_entries (event_at 1%positive)
      [("user" ++ "_name", VString "bob"); ("user", VEntity "user@email.com" "user_1" VNil)]
      (state_of (filler 7)) = Ok None σ2 /\
    deref (Some 1%positive) σ1 !! ("user" ++ "_name") = Some (VString "bob") /\
    deref (Some 1%positive) σ2 !! ("user" ++ "_name") = Some (VString "user@email.com").
Proof.
  apply (AddMetadata_order_matters (event_at 1%positive) 1%positive (filler 7)
           "user" "user@email.com" "user_1" VNil (VString "bob") (state_of (filler 7))).
  - reflexivity.
  - reflexivity.
  - vm_compute. lia.
  - reflexivity.
Defined.

Lemma list_ascii_of_string_app (a b : string) :
  list_ascii_of_string (a ++ b)
  = (list_ascii_of_string a ++ list_ascii_of_string b)%list.
Proof. induction a as [|c a IH]; simpl; [done|]. f_equal. exact IH. Qed.

Lemma list_ascii_of_string_inj (a b : string) :
  list_ascii_of_string a = list_ascii_of_string b -> a = b.
Proof.
  intros H. rewrite <- (string_of_list_ascii_of_string a),
              <- (string_of_list_ascii_of_string b). by rewrite H.
Qed.

Lemma suffixed_inj (k1 k2 s : string) : k1 ++ s = k2 ++ s -> k1 = k2.
Proof.
  intros H. apply list_ascii_of_string_inj.
  apply (f_equal list_ascii_of_string) in H.
  rewrite !list_ascii_of_string_app in H. by apply app_inv_tail in H.
Qed.

Lemma nameKey_ne_any_idKey (k1 k2 : string) : k1 ++ "_name" <> k2 ++ "_id".
Proof.
  intros H. apply (f_equal list_ascii_of_string) in H.
  rewrite !list_ascii_of_string_app in H. cbn in H.
  apply (f_equal (@rev ascii)) in H. rewrite !rev_app_distr in H. cbn in H.
  discriminate.
Qed.


Lemma put_expand mm k v :
  put mm k v = foldl (λ m kv, <[kv.1 := kv.2]> m) mm (expand (k, v)).
Proof. by destruct v. Qed.

Lemma foldl_put_expand entries : forall mm,
  foldl (λ m kv, put m kv.1 kv.2) mm entries
  = foldl (λ m kv, <[kv.1 := kv.2]> m) mm (entries ≫= expand).
Proof.
  induction entries as [|[k v] rest IH]; intros mm; [done|].
  cbn [foldl fst snd mbind list_bind]. by rewrite foldl_app, <- put_expand, IH.
Qed.

Lemma expand_entities_keys entries x :
  Forall (λ kv, is_Auditable kv.2 = true) entries ->
  x ∈ (entries ≫= expand).*1 ->
  exists k, k ∈ entries.*1 /\ (x = k ++ "_name" \/ x = k ++ "_id").
Proof.
  induction entries as [|[k v] rest IH]; intros Hent Hx.
  - by apply elem_of_nil in Hx.
  - apply Forall_cons in Hent as [Hv Hent].
    cbn [mbind list_bind] in Hx. rewrite fmap_app in Hx.
    apply elem_of_app in Hx as [Hx|Hx].
    + exists k. split; [by left|].
      destruct v; try discriminate. unfold expand in Hx. cbn in Hx.
      apply elem_of_cons in Hx as [->|Hx]; [by left|].
      apply elem_of_cons in Hx as [->|Hx]; [by right|].
      by apply elem_of_nil in Hx.
    + destruct (IH Hent Hx) as (k' & Hk' & Hcase). exists k'. split; [|done].
      rewrite fmap_cons. by right.
Qed.

Lemma expand_entities_NoDup entries :
  Forall (λ kv, is_Auditable kv.2 = true) entries ->
  NoDup entries.*1 ->
  NoDup (entries ≫= expand).*1 /\ length (entries ≫= expand) = 2 * length entries.
Proof.
  induction entries as [|[k v] rest IH]; intros Hent Hnd.
  - split; [constructor|done].
  - pose proof Hent as Hall. apply Forall_cons in Hent as [Hv Hent].
    rewrite fmap_cons in Hnd. apply NoDup_cons in Hnd as [Hk Hnd]. cbn [fst] in Hk.
    destruct (IH Hent Hnd) as [IHnd IHlen].
    cbn [mbind list_bind]. rewrite fmap_app, length_app, IHlen.
    destruct v; try discriminate. unfold expand. cbn [fst snd fmap list_fmap length].
    split; [|lia].
    apply NoDup_app. split; [|split; [|done]].
    + apply NoDup_cons. split; [|apply NoDup_singleton].
      intros Hin%list_elem_of_singleton. by apply (nameKey_ne_idKey k).
    + intros x Hx Hrest.
      destruct (expand_entities_keys rest x Hent Hrest) as (k' & Hk' & Hcase).
      apply elem_of_cons in Hx as [->|Hx].
      * destruct Hcase as [Heq|Heq].
        -- apply suffixed_inj in Heq as ->. done.
        -- by apply nameKey_ne_any_idKey in Heq.
      * apply list_elem_of_singleton in Hx as ->.
        destruct Hcase as [Heq|Heq].
        -- symmetry in Heq. by apply nameKey_ne_any_idKey in Heq.
        -- apply suffixed_inj in Heq as ->. done.
Qed.

Lemma expand_entities_elem entries k name id plain :
  (k, VEntity name id plain) ∈ entries ->
  (k ++ "_name", VString name) ∈ entries ≫= expand /\
  (k ++ "_id", VString id) ∈ entries ≫= expand.
Proof.
  intros Hin. split; apply list_elem_of_bind; exists (k, VEntity name id plain);
    (split; [|done]); unfold expand; cbn; set_solver.
Qed.

(** A batch of [n] describable values, and nothing else, put into an
    empty map with [2n] no more than 500: no error, and the map ends
    with exactly [2n] entries, the name and the id of each value under
    its two keys.  The expansions of different keys never meet. *)
Theorem AddMetadata_entities
    (range : gmap string value -> list (string * value)) e l metadata σ :
  (forall m, range m ≡ₚ map_to_list m) ->
  Metadata e = Some l -> maps σ !! l = Some ∅ ->
  map_Forall (λ _ v, is_Auditable v = true) metadata ->
  2 * size metadata <= 500 ->
  exists σ',
    AddMetadata range e metadata σ = Ok None σ' /\
    size (deref (Some l) σ') = 2 * size metadata /\
    forall k name id plain,
      metadata !! k = Some (VEntity name id plain) ->
      deref (Some l) σ' !! (k ++ "_name") = Some (VString name) /\
      deref (Some l) σ' !! (k ++ "_id") = Some (VString id).
Proof.
  intros Hrange He Hl Hent Hroom. unfold AddMetadata.
  assert (length (range metadata) = size metadata) as Hlen.
  { by rewrite (Hrange metadata), length_map_to_list. }
  assert (Forall (λ kv, is_Auditable kv.2 = true) (range metadata)) as Hents.
  { rewrite (Hrange metadata). apply Forall_forall.
    intros [k v] Hin%elem_of_map_to_list. by apply (Hent k v). }
  assert (NoDup (range metadata).*1) as Hnd.
  { rewrite (Hrange metadata). apply NoDup_fst_map_to_list. }
  destruct (expand_entities_NoDup _ Hents Hnd) as [Hexp Hexplen].
  rewrite (AddMetadata_entries_room e l (range metadata) ∅ σ He Hl).
  2: { rewrite map_size_empty. lia. }
  eexists. split; [reflexivity|]. rewrite deref_set_maps.
  rewrite foldl_put_expand, (foldl_insert_list_to_map _ _ Hexp), (right_id_L ∅ (∪)).
  split.
  - rewrite map_size_list_to_map; [|done]. lia.
  - intros k name id plain Hk.
    assert ((k, VEntity name id plain) ∈ range metadata) as Hin.
    { rewrite (Hrange metadata). by apply elem_of_map_to_list. }
    destruct (expand_entities_elem _ _ _ _ _ Hin) as [Hn Hi].
    split; by apply elem_of_list_to_map.
Qed.

Lemma AddMetadata_entities_witness :
  exists σ',
    AddMetadata map_to_list (event_at 1%positive) batch_entities (state_of ∅) = Ok None σ' /\
    size (deref (Some 1%positive) σ') = 2 * size batch_entities /\
    forall k name id plain,
      batch_entities !! k = Some (VEntity name id plain) ->
      deref (Some 1%positive) σ' !! (k ++ "_name") = Some (VString name) /\
      deref (Some 1%positive) σ' !! (k ++ "_id") = Some (VString id).
Proof.
  apply (AddMetadata_entities map_to_list (event_at 1%positive) 1%positive
           batch_entities (state_of ∅)).
  - apply map_to_list_entries.
  - reflexivity.
  - reflexivity.
  - unfold batch_entities, as_value.
    apply map_Forall_insert_2; [reflexivity|].
    apply map_Forall_insert_2; [reflexivity|]. apply map_Forall_empty.
  - vm_compute. lia.
Defined.


(** ** The record and the map *)







(** ** Publishing more than once, and past the cap *)

Lemma Publish_no_defaults
    (range : gmap string value -> list (string * value))
    (Hrange : forall m, range m ≡ₚ map_to_list m) transport e σ :
  globalMetadata σ = ∅ ->
  Publish range transport e σ
  = match marshal e σ with
    | inl err => Ok (Some err) σ
    | inr body => Ok (transport (sent σ) body) (push_sent body σ)
    end.
Proof.
  intros Hg. unfold Publish, bind, json_Marshal.
  rewrite Hg, (range_empty range Hrange). cbn. by destruct (marshal e σ).
Qed.

(** [Publish] has no memory of what it sent: published again with the
    maps and the defaults as the first call left them, the same event
    gives the same body, and the transport gets it a second time. *)
Theorem Publish_twice
    (range : gmap string value -> list (string * value)) transport e σ r σ1 body :
  (forall m, range m ≡ₚ map_to_list m) ->
  Publish range transport e σ = Ok r σ1 ->
  sent σ1 = (sent σ ++ [body])%list ->
  exists σ2,
    Publish range transport e σ1 = Ok (transport (sent σ1) body) σ2 /\
    sent σ2 = (sent σ ++ [body; body])%list /\
    maps σ2 = maps σ1.
Proof.
  intros Hrange Hrun Hsent.
  destruct (Publish_returns range Hrange transport _ _ _ _ Hrun)
    as [Hempty|(l & mm & He & Hl)].
  - rewrite (Publish_no_defaults range Hrange transport e σ Hempty) in Hrun.
    destruct (marshal e σ) as [err|body'] eqn:Hm; injection Hrun as <- <-.
    { apply (f_equal length) in Hsent. rewrite length_app in Hsent. cbn in Hsent. lia. }
    cbn in Hsent. apply app_inv_head in Hsent as [= ->].
    rewrite (Publish_no_defaults range Hrange transport e (push_sent body σ) Hempty).
    rewrite (marshal_maps e (push_sent body σ) σ eq_refl), Hm.
    eexists. split; [reflexivity|]. split; [|done]. cbn. by rewrite <- app_assoc.
  - rewrite (Publish_alloc range Hrange transport _ _ _ _ He Hl) in Hrun. cbv zeta in Hrun.
    set (σm := set_maps (<[l := globalMetadata σ ∪ mm]> (maps σ)) σ) in *.
    destruct (marshal e σm) as [err|body'] eqn:Hm; injection Hrun as <- <-.
    { apply (f_equal length) in Hsent. rewrite length_app in Hsent. cbn in Hsent. lia. }
    cbn in Hsent. apply app_inv_head in Hsent as [= ->].
    assert (maps (push_sent body σm) !! l = Some (globalMetadata σ ∪ mm)) as Hl1.
    { cbn. apply lookup_insert_eq. }
    rewrite (Publish_alloc range Hrange transport _ _ _ _ He Hl1). cbv zeta.
    assert (set_maps (<[l := globalMetadata (push_sent body σm) ∪ (globalMetadata σ ∪ mm)]>
                        (maps (push_sent body σm))) (push_sent body σm)
            = push_sent body σm) as ->.
    { unfold set_maps, push_sent, σm. cbn. f_equal.
      rewrite (assoc_L (∪)), (idemp_L (∪)). by rewrite insert_insert_eq. }
    rewrite (marshal_maps e (push_sent body σm) σm eq_refl), Hm.
    eexists. split; [reflexivity|]. split; [|done]. cbn. by rewrite <- app_assoc.
Qed.

Lemma Publish_twice_witness :
  exists σ2,
    Publish map_to_list transport_ok event_new
      (mkState {[ 1%positive := {[ "hostname" := VString "app-fe1.aws.amazon.com" ]} ]}
               {[ "hostname" := VString "app-fe1.aws.amazon.com" ]} [body_defaults])
    = Ok (transport_ok [body_defaults] body_defaults) σ2 /\
    sent σ2 = (sent state_defaults ++ [body_defaults; body_defaults])%list /\
    maps σ2
    = maps (mkState {[ 1%positive := {[ "hostname" := VString "app-fe1.aws.amazon.com" ]} ]}
                    {[ "hostname" := VString "app-fe1.aws.amazon.com" ]} [body_defaults]).
Proof.
  apply (Publish_twice map_to_list transport_ok event_new state_defaults None
           (mkState {[ 1%positive := {[ "hostname" := VString "app-fe1.aws.amazon.com" ]} ]}
                    {[ "hostname" := VString "app-fe1.aws.amazon.com" ]} [body_defaults])
           body_defaults).
  - apply map_to_list_entries.
  - vm_compute. reflexivity.
  - reflexivity.
Defined.


Lemma Publish_map
    (range : gmap string value -> list (string * value))
    (Hrange : forall m, range m ≡ₚ map_to_list m) transport e l mm σ r σ' :
  Metadata e = Some l -> maps σ !! l = Some mm ->
  Publish range transport e σ = Ok r σ' ->
  deref (Some l) σ' = globalMetadata σ ∪ mm /\
  globalMetadata σ' = globalMetadata σ /\
  (forall body, sent σ' = (sent σ ++ [body])%list -> marshal e σ' = inr body).
Proof.
  intros He Hl. rewrite (Publish_alloc range Hrange transport _ _ _ _ He Hl). cbv zeta.
  destruct (marshal e _) as [err|body] eqn:Hm; intros [= <- <-].
  - rewrite deref_set_maps. split; [done|]. split; [done|].
    cbn. intros body Hsent. apply (f_equal length) in Hsent.
    rewrite length_app in Hsent. cbn in Hsent. lia.
  - split; [apply deref_set_maps|]. split; [done|].
    cbn. intros body' [= <-]%app_inv_head. rewrite <- Hm. by apply marshal_maps.
Qed.

(** [Publish] checks no cap: the defaults go into the map however many
    entries that makes — the sum of both when no key is shared — and no
    error comes of it.  If the map then holds 500 entries or more, every
    later [addMetadata] on the event fails. *)
Theorem Publish_has_no_cap
    (range : gmap string value -> list (string * value)) transport e l mm σ r σ' :
  (forall m, range m ≡ₚ map_to_list m) ->
  Metadata e = Some l -> maps σ !! l = Some mm ->
  Publish range transport e σ = Ok r σ' ->
  size mm <= size (deref (Some l) σ') /\
  size (globalMetadata σ) <= size (deref (Some l) σ') /\
  (globalMetadata σ ##ₘ mm ->
   size (deref (Some l) σ') = size (globalMetadata σ) + size mm) /\
  (500 <= size (deref (Some l) σ') ->
   forall k v, addMetadata e k v σ' = Ok (Some capacity_error) σ').
Proof.
  intros Hrange He Hl Hrun.
  destruct (Publish_map range Hrange transport _ _ _ _ _ _ He Hl Hrun) as (Hmap & _ & _).
  rewrite Hmap. split_and!.
  - apply dom_subseteq_size. rewrite dom_union_L. set_solver.
  - apply map_subseteq_size, map_union_subseteq_l.
  - apply map_size_disj_union.
  - intros Hfull k v. unfold addMetadata, bind, len. rewrite He, Hmap.
    by rewrite decide_True.
Qed.

Lemma Publish_has_no_cap_witness :
  size (filler 500) <= size (deref (Some 1%positive) state_published) /\
  size (globalMetadata state_crowded) <= size (deref (Some 1%positive) state_published) /\
  (globalMetadata state_crowded ##ₘ filler 500 ->
   size (deref (Some 1%positive) state_published)
   = size (globalMetadata state_crowded) + size (filler 500)) /\
  (500 <= size (deref (Some 1%positive) state_published) ->
   forall k v,
     addMetadata (event_at 1%positive) k v state_published
     = Ok (Some capacity_error) state_published).
Proof.
  apply (Publish_has_no_cap map_to_list transport_ok (event_at 1%positive) 1%positive
           (filler 500) state_crowded None state_published).
  - apply map_to_list_entries.
  - reflexivity.
  - reflexivity.
  - vm_compute. reflexivity.
Defined.

(** A default that is a describable value is merged as it is, under
    its own key: [Publish] does not expand it into a name and an id as
    [addMetadata] would, and the two expanded keys keep what the event
    had unless a default of their own overwrites them. *)
Theorem Publish_does_not_expand
    (range : gmap string value -> list (string * value)) transport
    e l mm σ r σ' k name id plain :
  (forall m, range m ≡ₚ map_to_list m) ->
  Metadata e = Some l -> maps σ !! l = Some mm ->
  Publish range transport e σ = Ok r σ' ->
  globalMetadata σ !! k = Some (VEntity name id plain) ->
  deref (Some l) σ' !! k = Some (VEntity name id plain) /\
  (globalMetadata σ !! (k ++ "_name") = None ->
   deref (Some l) σ' !! (k ++ "_name") = mm !! (k ++ "_name")) /\
  (globalMetadata σ !! (k ++ "_id") = None ->
   deref (Some l) σ' !! (k ++ "_id") = mm !! (k ++ "_id")).
Proof.
  intros Hrange He Hl Hrun Hk.
  destruct (Publish_map range Hrange transport _ _ _ _ _ _ He Hl Hrun) as (Hmap & _ & _).
  rewrite Hmap. split_and!.
  - by apply lookup_union_Some_l.
  - intros Hn. by apply lookup_union_r.
  - intros Hi. by apply lookup_union_r.
Qed.

Lemma Publish_does_not_expand_witness :
  deref (Some 1%positive) state_actor_published !! "actor"
  = Some (VEntity "user@email.com" "user_1" VNil) /\
  (globalMetadata state_actor !! ("actor" ++ "_name") = None ->
   deref (Some 1%positive) state_actor_published !! ("actor" ++ "_name")
   = (∅ : gmap string value) !! ("actor" ++ "_name")) /\
  (globalMetadata state_actor !! ("actor" ++ "_id") = None ->
   deref (Some 1%positive) state_actor_published !! ("actor" ++ "_id")
   = (∅ : gmap string value) !! ("actor" ++ "_id")).
Proof.
  apply (Publish_does_not_expand map_to_list transport_ok (event_at 1%positive)
           1%positive ∅ state_actor None state_actor_published
           "actor" "user@email.com" "user_1" VNil).
  - apply map_to_list_entries.
  - reflexivity.
  - reflexivity.
  - vm_compute. reflexivity.
  - reflexivity.
Defined.




Example Sso_authorization_url_example :
  snd (Sso.GetAuthorizationURL Sso.parse_default Sso.client_new
         (Sso.mkOptions "lyft.com" "" "custom state"))
  = inr (Sso.mkURL "https" "api.workos.com" "/sso/authorize"
           "client_id=project_123&domain=lyft.com&redirect_uri=https%3A%2F%2Ffoo.com%2Fcallback&response_type=code&state=custom+state").
Proof. vm_compute. reflexivity. Qed.


(** * Properties of the SSO client *)

Lemma string_length_app (s t : string) :
  String.length (s ++ t) = String.length s + String.length t.
Proof. induction s as [|c s IH]; simpl; [done|]. by rewrite IH. Qed.

Lemma substring_whole (t : string) : substring 0 (String.length t) t = t.
Proof. induction t as [|c t IH]; simpl; [done|]. by rewrite IH. Qed.

Lemma substring_skip (s t : string) m :
  substring (String.length s) m (s ++ t) = substring 0 m t.
Proof. induction s as [|c s IH]; simpl; [done|]. exact IH. Qed.

Lemma substring_take (s t : string) : substring 0 (String.length s) (s ++ t) = s.
Proof.
  induction s as [|c s IH]; simpl; [by destruct t|]. by rewrite IH.
Qed.

Lemma TrimSuffix_app (s t : string) : Sso.TrimSuffix (s ++ t) t = s.
Proof.
  unfold Sso.TrimSuffix, Sso.HasSuffix. rewrite string_length_app.
  replace (String.length s + String.length t - String.length t) with (String.length s) by lia.
  rewrite substring_skip, substring_whole, String.eqb_refl, substring_take.
  destruct (String.length t <=? String.length s + String.length t)%nat eqn:Hle; [done|].
  apply Nat.leb_gt in Hle. lia.
Qed.

Lemma TrimSuffix_none (s t : string) : Sso.HasSuffix s t = false -> Sso.TrimSuffix s t = s.
Proof. unfold Sso.TrimSuffix. by intros ->. Qed.

(** The first use of a client fixes its endpoints: the default when
    none was given, one trailing slash dropped, and the two paths
    appended.  [https://host/] and [https://host] give the same client.
    A timeout of 15 seconds is set only when no HTTP client was given. *)
Theorem once_Do_init_endpoints (c : Sso.Client) :
  Sso.once c = false ->
  Sso.authorizationURLEndpoint (Sso.once_Do_init c)
  = Sso.Endpoint (Sso.once_Do_init c) ++ "/sso/authorize" /\
  Sso.profileEndpoint (Sso.once_Do_init c)
  = Sso.Endpoint (Sso.once_Do_init c) ++ "/sso/token" /\
  (Sso.Endpoint c = "" -> Sso.Endpoint (Sso.once_Do_init c) = "https://api.workos.com") /\
  (forall s, Sso.Endpoint c = s ++ "/" -> Sso.Endpoint (Sso.once_Do_init c) = s) /\
  (Sso.Endpoint c <> "" -> Sso.HasSuffix (Sso.Endpoint c) "/" = false ->
   Sso.Endpoint (Sso.once_Do_init c) = Sso.Endpoint c) /\
  Sso.HTTPClient (Sso.once_Do_init c)
  = Some (default (Sso.mk_http_Client 15) (Sso.HTTPClient c)).
Proof.
  intros Honce. unfold Sso.once_Do_init. rewrite Honce. cbn.
  split_and!; try reflexivity.
  - intros ->. reflexivity.
  - intros s Hs. rewrite decide_False.
    + rewrite Hs. apply TrimSuffix_app.
    + rewrite Hs. by destruct s.
  - intros Hne Hsuffix. rewrite decide_False; [|done]. by apply TrimSuffix_none.
  - by destruct (Sso.HTTPClient c).
Qed.

Lemma once_Do_init_endpoints_witness :
  Sso.authorizationURLEndpoint (Sso.once_Do_init Sso.client_new)
  = Sso.Endpoint (Sso.once_Do_init Sso.client_new) ++ "/sso/authorize" /\
  Sso.profileEndpoint (Sso.once_Do_init Sso.client_new)
  = Sso.Endpoint (Sso.once_Do_init Sso.client_new) ++ "/sso/token" /\
  (Sso.Endpoint Sso.client_new = "" ->
   Sso.Endpoint (Sso.once_Do_init Sso.client_new) = "https://api.workos.com") /\
  (forall s, Sso.Endpoint Sso.client_new = s ++ "/" ->
             Sso.Endpoint (Sso.once_Do_init Sso.client_new) = s) /\
  (Sso.Endpoint Sso.client_new <> "" ->
   Sso.HasSuffix (Sso.Endpoint Sso.client_new) "/" = false ->
   Sso.Endpoint (Sso.once_Do_init Sso.client_new) = Sso.Endpoint Sso.client_new) /\
  Sso.HTTPClient (Sso.once_Do_init Sso.client_new)
  = Some (default (Sso.mk_http_Client 15) (Sso.HTTPClient Sso.client_new)).
Proof.
  apply (once_Do_init_endpoints Sso.client_new). reflexivity.
Defined.

Lemma GetAuthorizationURL_client parse c opts :
  fst (Sso.GetAuthorizationURL parse c opts) = Sso.once_Do_init c /\
  Sso.once (Sso.once_Do_init c) = true.
Proof.
  unfold Sso.GetAuthorizationURL. cbv zeta. split.
  - destruct (decide (_ /\ _)); [done|]. by destruct (parse _).
  - unfold Sso.once_Do_init. by destruct (Sso.once c) eqn:Honce.
Qed.

(** [GetAuthorizationURL] without a domain and without a provider
    returns the incomplete-arguments error, whatever the endpoint is;
    when the endpoint parses this is the only case in which it does.
    The client is initialised by the call either way. *)
Theorem GetAuthorizationURL_incomplete parse c opts :
  (Sso.Domain opts = "" /\ Sso.Provider opts = "" ->
   snd (Sso.GetAuthorizationURL parse c opts) = inl Sso.incomplete_arguments) /\
  (forall u, parse (Sso.authorizationURLEndpoint (Sso.once_Do_init c)) = inr u ->
     snd (Sso.GetAuthorizationURL parse c opts) = inl Sso.incomplete_arguments ->
     Sso.Domain opts = "" /\ Sso.Provider opts = "") /\
  fst (Sso.GetAuthorizationURL parse c opts) = Sso.once_Do_init c /\
  Sso.once (Sso.once_Do_init c) = true.
Proof.
  unfold Sso.GetAuthorizationURL. cbv zeta. split_and!.
  - intros Hboth. by rewrite decide_True.
  - intros u Hu. destruct (decide (_ /\ _)) as [Hboth|Hnot]; [done|].
    rewrite Hu. discriminate.
  - destruct (decide (_ /\ _)); [done|]. by destruct (parse _).
  - unfold Sso.once_Do_init. by destruct (Sso.once c) eqn:Honce.
Qed.

(** The query of the URL that [GetAuthorizationURL] returns, in full:
    the client id, the domain if there is one, the provider if there is
    one, the redirect URI, [response_type=code] and the state if there
    is one, in this order, each value escaped; scheme, host and path
    are those of the parsed endpoint. *)
Theorem GetAuthorizationURL_query parse c opts u :
  ~ (Sso.Domain opts = "" /\ Sso.Provider opts = "") ->
  parse (Sso.authorizationURLEndpoint (Sso.once_Do_init c)) = inr u ->
  snd (Sso.GetAuthorizationURL parse c opts)
  = inr (Sso.mkURL (Sso.Scheme u) (Sso.Host u) (Sso.Path u)
           ("client_id=" ++ Sso.QueryEscape (Sso.ProjectID c)
            ++ (if decide (Sso.Domain opts = "") then ""
                else "&domain=" ++ Sso.QueryEscape (Sso.Domain opts))
            ++ (if decide (Sso.Provider opts = "") then ""
                else "&provider=" ++ Sso.QueryEscape (Sso.Provider opts))
            ++ "&redirect_uri=" ++ Sso.QueryEscape (Sso.RedirectURI c)
            ++ "&response_type=code"
            ++ (if decide (Sso.State opts = "") then ""
                else "&state=" ++ Sso.QueryEscape (Sso.State opts)))).
Proof.
  intros Hnot Hu. unfold Sso.GetAuthorizationURL. cbv zeta.
  rewrite decide_False; [|done]. rewrite Hu. cbn [snd]. f_equal. f_equal.
  assert (Sso.ProjectID (Sso.once_Do_init c) = Sso.ProjectID c /\
          Sso.RedirectURI (Sso.once_Do_init c) = Sso.RedirectURI c) as [-> ->].
  { unfold Sso.once_Do_init. by destruct (Sso.once c). }
  generalize (Sso.ProjectID c) (Sso.RedirectURI c). intros pid uri.
  destruct opts as [domain provider state]. cbn [Sso.Domain Sso.Provider Sso.State] in *.
  unfold Sso.Encode, Sso.Encode_with, Sso.Values_Set.
  generalize Sso.QueryEscape (eq_refl : Sso.QueryEscape "client_id" = "client_id")
    (eq_refl : Sso.QueryEscape "domain" = "domain")
    (eq_refl : Sso.QueryEscape "provider" = "provider")
    (eq_refl : Sso.QueryEscape "redirect_uri" = "redirect_uri")
    (eq_refl : Sso.QueryEscape "response_type" = "response_type")
    (eq_refl : Sso.QueryEscape "state" = "state")
    (eq_refl : Sso.QueryEscape "code" = "code").
  intros esc H1 H2 H3 H4 H5 H6 H7.
  repeat case_decide; try tauto;
    vm_compute; rewrite ?H1, ?H2, ?H3, ?H4, ?H5, ?H6, ?H7; reflexivity.
Qed.

Lemma GetAuthorizationURL_query_witness :
  snd (Sso.GetAuthorizationURL Sso.parse_default Sso.client_new
         (Sso.mkOptions "lyft.com" "" "custom state"))
  = inr (Sso.mkURL "https" "api.workos.com" "/sso/authorize"
           ("client_id=" ++ Sso.QueryEscape "project_123"
            ++ (if decide ("lyft.com" = "") then ""
                else "&domain=" ++ Sso.QueryEscape "lyft.com")
            ++ (if decide ("" = "") then ""
                else "&provider=" ++ Sso.QueryEscape "")
            ++ "&redirect_uri=" ++ Sso.QueryEscape "https://foo.com/callback"
            ++ "&response_type=code"
            ++ (if decide ("custom state" = "") then ""
                else "&state=" ++ Sso.QueryEscape "custom state"))).
Proof.
  apply (GetAuthorizationURL_query Sso.parse_default Sso.client_new
           (Sso.mkOptions "lyft.com" "" "custom state")
           (Sso.mkURL "https" "api.workos.com" "/sso/authorize" "")).
  - intros [Hd _]. discriminate.
  - reflexivity.
Defined.

(** After its first use a client is settled: later calls leave it as it
    is, and a change of its [Endpoint] field changes nothing in what
    they return. *)
Theorem GetAuthorizationURL_endpoint_frozen parse c opts opts' endpoint' :
  let c1 := fst (Sso.GetAuthorizationURL parse c opts) in
  let c2 := Sso.mkClient (Sso.APIKey c1) (Sso.ProjectID c1) (Sso.RedirectURI c1) endpoint'
                         (Sso.HTTPClient c1) (Sso.once c1)
                         (Sso.authorizationURLEndpoint c1) (Sso.profileEndpoint c1) in
  fst (Sso.GetAuthorizationURL parse c1 opts') = c1 /\
  fst (Sso.GetAuthorizationURL parse c2 opts') = c2 /\
  snd (Sso.GetAuthorizationURL parse c2 opts') = snd (Sso.GetAuthorizationURL parse c1 opts').
Proof.
  destruct (GetAuthorizationURL_client parse c opts) as (Hfst & Honce).
  cbv zeta. rewrite Hfst. clear Hfst. revert Honce.
  generalize (Sso.once_Do_init c). intros c1 Honce.
  assert (forall c', Sso.once c' = true -> Sso.once_Do_init c' = c') as Hdone.
  { intros c' Hc'. unfold Sso.once_Do_init. by rewrite Hc'. }
  unfold Sso.GetAuthorizationURL. cbv zeta. rewrite !Hdone by exact Honce.
  cbn [Sso.ProjectID Sso.RedirectURI Sso.authorizationURLEndpoint].
  destruct (decide (_ /\ _)); [done|].
  destruct (parse (Sso.authorizationURLEndpoint c1)); done.
Qed.
